(** * 1brc: per-station statistics over a memory-mapped measurements file

    A shallow embedding of [src/main.cpp]:
    - [float] is IEEE-754 binary32, modelled with the Standard Library's
      [spec_float] at precision 24 and maximal exponent 128;
    - [const char*] is the list of bytes of the mapping from the pointer
      onwards, so that [str[i]] is [nth_error str i] and a read past the
      mapping has no value;
    - [size_t] and [uint64_t] arithmetic that can wrap is written with
      [wrap64];
    - [std::unordered_map<std::string, locationData>] is an interface
      ([UnorderedMap]) whose iteration order is left to the instance.

    Every float operation rounds to binary32, to nearest even, on its own
    (no fused multiply-add).  The mapping is the list of the file's bytes. *)

From Stdlib Require Import Strings.Byte Strings.String.
From Stdlib Require Import ZArith List Bool Lia Arith Permutation.
From Stdlib Require Import Floats.SpecFloat.
Import ListNotations.

(** ** binary32 *)

Definition float : Type := spec_float.

Module F32.

Definition prec : Z := 24.
Definition emax : Z := 128.

Definition add : float -> float -> float := SFadd prec emax.
Definition mul : float -> float -> float := SFmul prec emax.
Definition div : float -> float -> float := SFdiv prec emax.
Definition opp : float -> float := SFopp.
Definition ltb : float -> float -> bool := SFltb.
Definition leb : float -> float -> bool := SFleb.
Definition eqb : float -> float -> bool := SFeqb.

(** [static_cast<float>(n)] for an integer [n], rounding to nearest even. *)
Definition of_Z (n : Z) : float := binary_normalize prec emax n 0 false.

Definition zero : float := S754_zero false.
Definition one : float := Eval vm_compute in of_Z 1.
Definition ten : float := Eval vm_compute in of_Z 10.
(** The literal [0.1f]: the binary32 nearest to one tenth, 0x3DCCCCCD. *)
Definition tenth : float := S754_finite false 13421773 (-27).

Definition is_nan (x : float) : bool :=
  match x with S754_nan => true | _ => false end.

(** Zero or finite: neither an infinity nor a NaN. *)
Definition is_finite (x : float) : bool :=
  match x with S754_zero _ | S754_finite _ _ _ => true | _ => false end.

End F32.

(** ** Bytes and characters *)

Definition char_minus : byte := x2d.
Definition char_point : byte := x2e.
Definition char_semi : byte := x3b.
Definition char_nl : byte := x0a.
Definition char_0 : byte := x30.

(** The value of a [char] as an [int]; [char] is signed on the target. *)
Definition char_val (c : byte) : Z :=
  let n := Z.of_N (Byte.to_N c) in
  (if n <? 128 then n else n - 256)%Z.

(** [static_cast<float>(c - '0')] *)
Definition digit (c : byte) : float := F32.of_Z (char_val c - char_val char_0)%Z.

Definition bytes (s : string) : list byte := list_byte_of_string s.

(** ** Reads through a [const char*], with the indices read recorded *)

Module Rd.

(** A computation that reads memory: it takes the indices read so far and
    returns them extended, with a value unless a read fell outside the
    mapping. *)
Definition t (A : Type) : Type := list nat -> option A * list nat.

Definition ret {A} (a : A) : t A := fun log => (Some a, log).

Definition bind {A B} (m : t A) (f : A -> t B) : t B :=
  fun log =>
    match m log with
    | (Some a, log') => f a log'
    | (None, log') => (None, log')
    end.

(** [str[i]] *)
Definition load (str : list byte) (i : nat) : t byte :=
  fun log => (nth_error str i, log ++ [i]).

Definition run {A} (m : t A) : option A := fst (m []).
Definition reads {A} (m : t A) : list nat := snd (m []).

End Rd.

Declare Scope rd_scope.
Delimit Scope rd_scope with rd.
Notation "x <- m ;; k" := (Rd.bind m (fun x => k))
  (at level 61, m at next level, right associativity) : rd_scope.
Notation "' p <- m ;; k" := (Rd.bind m (fun y => match y with p => k end))
  (at level 61, p pattern, m at next level, right associativity) : rd_scope.

(** ** parse_float *)

Section ParseFloat.

Local Open Scope rd_scope.

Variable str : list byte.

(** [while (i < len && str[i] != '.') { result = result * 10.0f + ...; i++; }]
    The recursion is on [len - i]: the loop test [i < len] holds exactly
    when that difference is a successor. *)
Fixpoint int_loop (left : nat) (i : nat) (result : float) : Rd.t (nat * float) :=
  match left with
  | O => Rd.ret (i, result)
  | S left' =>
      c <- Rd.load str i ;;
      if Byte.eqb c char_point then Rd.ret (i, result)
      else int_loop left' (S i) (F32.add (F32.mul result F32.ten) (digit c))
  end.

(** [while (i < len) { fraction *= 0.1f; result += ... * fraction; i++; }] *)
Fixpoint frac_loop (left : nat) (i : nat) (fraction result : float) : Rd.t float :=
  match left with
  | O => Rd.ret result
  | S left' =>
      let fraction := F32.mul fraction F32.tenth in
      c <- Rd.load str i ;;
      frac_loop left' (S i) fraction (F32.add result (F32.mul (digit c) fraction))
  end.

Definition parse_float_rd (len : nat) : Rd.t float :=
  c0 <- Rd.load str 0 ;;
  let negative := Byte.eqb c0 char_minus in
  let i := if negative then 1 else 0 in
  ' (i, result) <- int_loop (len - i) i F32.zero ;;
  result <-
    (if i <? len then
       c <- Rd.load str i ;;
       if Byte.eqb c char_point
       then frac_loop (len - S i) (S i) F32.one result
       else Rd.ret result
     else Rd.ret result) ;;
  Rd.ret (if negative then F32.opp result else result).

End ParseFloat.

(** The value [parse_float(str, len)] returns, if every read is inside the
    mapping. *)
Definition parse_float (str : list byte) (len : nat) : option float :=
  Rd.run (parse_float_rd str len).

(** The indices at which [parse_float(str, len)] reads [str], in order. *)
Definition parse_float_reads (str : list byte) (len : nat) : list nat :=
  Rd.reads (parse_float_rd str len).

(** ** locationData *)

Definition wrap64 (z : Z) : Z := (z mod 2 ^ 64)%Z.

Record locationData := mkLocationData {
  count : Z;          (* uint64_t *)
  total : float;
  temp_min : float;
  temp_max : float
}.

(** The default member initialisers: [locationData{}]. *)
Definition locationData_init : locationData :=
  {| count := 0; total := F32.of_Z 0;
     temp_min := F32.of_Z 99; temp_max := F32.of_Z (-99) |}.

(** The body of [process_line] after [auto& loc_value = loc_data[location]]. *)
Definition update_stats (temperature_num : float) (loc_value : locationData)
  : locationData :=
  {| count := wrap64 (count loc_value + 1);
     total := F32.add (total loc_value) temperature_num;
     temp_min := if F32.ltb temperature_num (temp_min loc_value)
                 then temperature_num else temp_min loc_value;
     temp_max := if F32.ltb (temp_max loc_value) temperature_num
                 then temperature_num else temp_max loc_value |}.

(** The body of the merge loop after [auto& loc_value = loc_data[key]]. *)
Definition merge_stats (value : locationData) (loc_value : locationData)
  : locationData :=
  {| count := wrap64 (count loc_value + count value);
     total := F32.add (total loc_value) (total value);
     temp_min := if F32.ltb (temp_min value) (temp_min loc_value)
                 then temp_min value else temp_min loc_value;
     temp_max := if F32.ltb (temp_max loc_value) (temp_max value)
                 then temp_max value else temp_max loc_value |}.

(** ** std::unordered_map<std::string, locationData> *)

Definition key : Type := list byte.

Definition key_eq_dec : forall a b : key, {a = b} + {a <> b} :=
  list_eq_dec Byte.byte_eq_dec.

(** What the program uses of the container: [operator[]] followed by an
    update of the mapped value ([um_modify], which value-initialises an absent
    key first), and iteration ([um_items]).  The order of iteration is not
    part of the interface. *)
Class UnorderedMap : Type := {
  umap : Type;
  um_empty : umap;
  um_find : key -> umap -> option locationData;
  um_modify : key -> (locationData -> locationData) -> umap -> umap;
  um_items : umap -> list (key * locationData);
  um_find_empty : forall k, um_find k um_empty = None;
  um_find_modify : forall k f m k',
    um_find k' (um_modify k f m) =
    if key_eq_dec k k'
    then Some (f (match um_find k m with
                  | Some v => v
                  | None => locationData_init
                  end))
    else um_find k' m;
  um_items_nodup : forall m, NoDup (map fst (um_items m));
  um_items_find : forall m k v, In (k, v) (um_items m) <-> um_find k m = Some v
}.

(** ** process_line, process_chunk *)

(** A [std::string_view] into the mapping: its [data()] as an offset from the
    start of the mapping, and its [size()]. *)
Record string_view := mk_sv { sv_data : nat; sv_size : nat }.

Definition sv_bytes (data : list byte) (v : string_view) : option (list byte) :=
  if sv_data v + sv_size v <=? length data
  then Some (firstn (sv_size v) (skipn (sv_data v) data))
  else None.

(** [line.find(c)]: the first position of [c], [None] for [npos]. *)
Fixpoint find_byte (c : byte) (line : list byte) : option nat :=
  match line with
  | [] => None
  | b :: line' =>
      if Byte.eqb b c then Some 0
      else match find_byte c line' with
           | Some n => Some (S n)
           | None => None
           end
  end.

(** [while (i < end && data[i] != '\n') ++i;] with [left = end - i];
    the result is the new [i]. *)
Fixpoint scan_line (data : list byte) (left i : nat) : option nat :=
  match left with
  | O => Some i
  | S left' =>
      match nth_error data i with
      | None => None
      | Some c =>
          if Byte.eqb c char_nl then Some i else scan_line data left' (S i)
      end
  end.

Section Chunk.

Context {State : Type}.
(** What is done with each line; [process_chunk] calls [process_line]. *)
Variable handler : string_view -> State -> option State.
Variable data : list byte.
Variable end_ : nat.

(** The outer loop of [process_chunk].  Every iteration advances [i], so
    [end - start_pos] iterations are enough; [fuel] counts them down. *)
Fixpoint chunk_loop (fuel : nat) (i : nat) (s : State) : option State :=
  if end_ <=? i then Some s
  else
    match fuel with
    | O => None
    | S fuel' =>
        match scan_line data (end_ - i) i with
        | None => None
        | Some j =>
            match handler (mk_sv i (j - i)) s with
            | None => None
            | Some s' => chunk_loop fuel' (S j) s'
            end
        end
    end.

End Chunk.

Definition process_chunk_with {State} (handler : string_view -> State -> option State)
    (data : list byte) (start_pos end_ : nat) (s : State) : option State :=
  chunk_loop handler data end_ (end_ - start_pos) start_pos s.

Section Program.

Context {M : UnorderedMap}.

Definition process_line (data : list byte) (line : string_view)
    (loc_data : umap) : option umap :=
  match sv_bytes data line with
  | None => None
  | Some bs =>
      match find_byte char_semi bs with
      | None => Some loc_data
      | Some delimiter_pos =>
          let location := firstn delimiter_pos bs in
          match parse_float (skipn (sv_data line + delimiter_pos + 1) data)
                            (sv_size line - delimiter_pos - 1) with
          | None => None
          | Some temperature_num =>
              Some (um_modify location (update_stats temperature_num) loc_data)
          end
      end
  end.

Definition process_chunk (data : list byte) (start_pos end_ : nat)
    (loc_data : umap) : option umap :=
  process_chunk_with (process_line data) data start_pos end_ loc_data.

(** ** main *)

(** [start_pos] and [end] of thread [i]. *)
Definition chunk_range (size num_threads i : Z) : Z * Z :=
  let chunk_size := (size / num_threads)%Z in
  (wrap64 (i * chunk_size),
   if (i =? wrap64 (num_threads - 1))%Z then size
   else wrap64 ((i + 1) * chunk_size)).

(** The thread body up to the lock: the thread's private table. *)
Definition worker (data : list byte) (num_threads i : Z) : option umap :=
  let '(start_pos, end_) := chunk_range (Z.of_nat (length data)) num_threads i in
  process_chunk data (Z.to_nat start_pos) (Z.to_nat end_) um_empty.

(** The thread body under the lock. *)
Definition merge_local (local_loc_data loc_data : umap) : umap :=
  fold_left (fun acc kv => um_modify (fst kv) (merge_stats (snd kv)) acc)
            (um_items local_loc_data) loc_data.

(** The table after all threads have joined.  The threads share only the
    read-only mapping and the table under the mutex, so a run is determined
    by [schedule], the order in which the threads take the lock. *)
Definition run_threads (data : list byte) (num_threads : Z) (schedule : list Z)
  : option umap :=
  if (num_threads =? 0)%Z then None
  else
    fold_left
      (fun acc i =>
         match acc, worker data num_threads i with
         | Some loc_data, Some local_loc_data =>
             Some (merge_local local_loc_data loc_data)
         | _, _ => None
         end)
      schedule (Some um_empty).

(** The threads [0 .. num_threads - 1]. *)
Definition thread_ids (num_threads : Z) : list Z :=
  map Z.of_nat (seq 0 (Z.to_nat num_threads)).

(** One line of the report: key, count, average, min, max. *)
Definition report_line (kv : key * locationData)
  : key * Z * float * float * float :=
  (fst kv, count (snd kv),
   F32.div (total (snd kv)) (F32.of_Z (count (snd kv))),
   temp_min (snd kv), temp_max (snd kv)).

Definition report (loc_data : umap) : list (key * Z * float * float * float) :=
  map report_line (um_items loc_data).

End Program.

(** ** An instance: a table that iterates in insertion order *)

Module InsertionOrder.

Definition key_eqb (a b : key) : bool :=
  if key_eq_dec a b then true else false.

Definition table : Type := list (key * locationData).

Fixpoint find (k : key) (m : table) : option locationData :=
  match m with
  | [] => None
  | (k', v) :: m' => if key_eqb k k' then Some v else find k m'
  end.

Fixpoint modify (k : key) (f : locationData -> locationData) (m : table) : table :=
  match m with
  | [] => [(k, f locationData_init)]
  | (k', v) :: m' =>
      if key_eqb k k' then (k', f v) :: m' else (k', v) :: modify k f m'
  end.

(** The entries, each key once (the first entry of a key is the live one). *)
Fixpoint items (m : table) : table :=
  match m with
  | [] => []
  | (k, v) :: m' =>
      (k, v) :: filter (fun kv => negb (key_eqb k (fst kv))) (items m')
  end.

End InsertionOrder.

(** * What the claims are stated with *)

(** ** The decimal grammar and the value the specification assigns *)

Definition is_digit (c : byte) : bool :=
  ((48 <=? Byte.to_N c) && (Byte.to_N c <=? 57))%N.

Module NumericSpec.

(** A span of the grammar: optional leading minus, integer digits, and an
    optional point followed by fractional digits. *)
Record literal := mk_literal {
  lit_minus : bool;
  lit_int : list byte;
  lit_frac : option (list byte)
}.

Definition lit_bytes (l : literal) : list byte :=
  (if lit_minus l then [char_minus] else []) ++ lit_int l ++
  match lit_frac l with
  | Some fs => char_point :: fs
  | None => []
  end.

Definition well_formed (l : literal) : Prop :=
  Forall (fun c => is_digit c = true) (lit_int l) /\
  match lit_frac l with
  | Some fs => Forall (fun c => is_digit c = true) fs
  | None => True
  end.

(** Integer part: repeated multiply-by-10-and-add. *)
Definition integer_part (ds : list byte) : float :=
  fold_left (fun result d => F32.add (F32.mul result F32.ten) (digit d)) ds F32.zero.

(** Fractional part: a factor that decays by 0.1 per digit. *)
Definition fraction_step (st : float * float) (d : byte) : float * float :=
  let fraction := F32.mul (fst st) F32.tenth in
  (fraction, F32.add (snd st) (F32.mul (digit d) fraction)).

Definition add_fraction_part (fs : list byte) (result : float) : float :=
  snd (fold_left fraction_step fs (F32.one, result)).

(** Negated at the end if a leading minus was seen. *)
Definition value (l : literal) : float :=
  let result := integer_part (lit_int l) in
  let result := match lit_frac l with
                | Some fs => add_fraction_part fs result
                | None => result
                end in
  if lit_minus l then F32.opp result else result.

End NumericSpec.

(** ** The lines of a byte range, as the specification describes them *)

Module LineSpec.

Definition newline_free (l : list byte) : Prop := ~ In char_nl l.

(** [lines_of bs ls]: [ls] are the maximal newline-free segments of [bs], in
    order.  A line extends to the next newline, which is consumed and not
    part of it, or to the end of the range; a last line that lacks its
    newline still counts. *)
Inductive lines_of : list byte -> list (list byte) -> Prop :=
| lines_done : lines_of [] []
| lines_last l : newline_free l -> l <> [] -> lines_of l [l]
| lines_next l bs ls :
    newline_free l -> lines_of bs ls -> lines_of (l ++ char_nl :: bs) (l :: ls).

Fixpoint split_lines (bs : list byte) : list (list byte) :=
  match bs with
  | [] => []
  | b :: bs' =>
      if Byte.eqb b char_nl then [] :: split_lines bs'
      else match split_lines bs' with
           | [] => [[b]]
           | l :: ls => (b :: l) :: ls
           end
  end.

(** The [string_view]s of consecutive lines, the first one at [start]. *)
Fixpoint views_from (start : nat) (ls : list (list byte)) : list string_view :=
  match ls with
  | [] => []
  | l :: ls' => mk_sv start (length l) :: views_from (start + length l + 1) ls'
  end.

(** Handing the views to the line handler one after the other. *)
Fixpoint fold_handler {State} (handler : string_view -> State -> option State)
    (vs : list string_view) (s : State) : option State :=
  match vs with
  | [] => Some s
  | v :: vs' =>
      match handler v s with
      | Some s' => fold_handler handler vs' s'
      | None => None
      end
  end.

End LineSpec.

(** ** Records and tables *)

(** A parsed line: the station and the temperature. *)
Definition record : Type := key * float.

Section Aggregation.

Context {M : UnorderedMap}.

(** The mapped value [loc_data[k]] refers to: the entry, or a fresh one. *)
Definition um_at (k : key) (m : umap) : locationData :=
  match um_find k m with
  | Some v => v
  | None => locationData_init
  end.

(** The update [process_line] makes for a record. *)
Definition add_record (loc_data : umap) (r : record) : umap :=
  um_modify (fst r) (update_stats (snd r)) loc_data.

(** One sequential pass over records. *)
Definition aggregate (rs : list record) (loc_data : umap) : umap :=
  fold_left add_record rs loc_data.

(** The merges of the thread tables [ts], in the order the lock is taken. *)
Definition merge_tables (ts : list umap) (loc_data : umap) : umap :=
  fold_left (fun acc local_loc_data => merge_local local_loc_data acc) ts loc_data.

(** The entries for [k] in the tables [ts], in order. *)
Definition entries_of (k : key) (ts : list umap) : list locationData :=
  flat_map (fun t => match um_find k t with Some v => [v] | None => [] end) ts.

End Aggregation.

(** The temperatures recorded for station [k]. *)
Definition values_of (k : key) (rs : list record) : list float :=
  map snd (filter (fun r => if key_eq_dec (fst r) k then true else false) rs).

(** The statistics after the updates for [vs], starting from [s]. *)
Definition update_all (vs : list float) (s : locationData) : locationData :=
  fold_left (fun s v => update_stats v s) vs s.

(** The statistics after merging [ls] into [s]. *)
Definition merge_all (ls : list locationData) (s : locationData) : locationData :=
  fold_left (fun s l => merge_stats l s) ls s.

(** ** Statistics of one station *)

(** [temp_max] as it evolves: replaced by [x] when [temp_max < x]. *)
Definition running_max (m0 : float) (xs : list float) : float :=
  fold_left (fun m x => if F32.ltb m x then x else m) xs m0.

(** [temp_min] as it evolves: replaced by [x] when [temp_min > x]. *)
Definition running_min (m0 : float) (xs : list float) : float :=
  fold_left (fun m x => if F32.ltb x m then x else m) xs m0.

(** [total] as it evolves: a float sum from left to right. *)
Definition running_sum (t0 : float) (xs : list float) : float :=
  fold_left F32.add xs t0.

Definition sum_Z (ns : list Z) : Z := fold_right Z.add 0%Z ns.

(** Same count, and minimum and maximum equal as numbers ([==]). *)
Definition stats_agree (o o' : option locationData) : Prop :=
  match o, o' with
  | Some s, Some s' =>
      count s = count s' /\
      F32.eqb (temp_min s) (temp_min s') = true /\
      F32.eqb (temp_max s) (temp_max s') = true
  | None, None => True
  | _, _ => False
  end.

(** ** Groups of records *)

(** The temperatures of station [k] in each group that mentions it. *)
Definition station_groups (k : key) (groups : list (list record)) : list (list float) :=
  filter (fun vs => match vs with [] => false | _ => true end)
         (map (values_of k) groups).

(** The statistics of a station after updates with the values [vs], each of
    them returned by [parse_float], in the order they were made. *)
Inductive reachable : list float -> locationData -> Prop :=
| reach_init : reachable [] locationData_init
| reach_update vs s str len v :
    reachable vs s -> parse_float str len = Some v ->
    reachable (vs ++ [v]) (update_stats v s).

(** ** The chunk plan *)

(** The number of bytes thread [i] is given. *)
Definition chunk_length (size num_threads i : Z) : Z :=
  (snd (chunk_range size num_threads i) - fst (chunk_range size num_threads i))%Z.

(** ** Counts *)

Section CountsWithin.

Context {M : UnorderedMap}.

(** Every entry of the table has a count between 1 and [n]. *)
Definition counts_within (n : Z) (t : umap) : Prop :=
  forall k v, um_find k t = Some v -> (1 <= count v <= n)%Z.

End CountsWithin.

(** ** The report *)

Definition line_key (l : key * Z * float * float * float) : key :=
  fst (fst (fst (fst l))).

(** [a <= b] for [std::string]: lexicographic, bytes compared as unsigned. *)
Fixpoint key_leb (a b : key) : bool :=
  match a, b with
  | [], _ => true
  | _ :: _, [] => false
  | x :: a', y :: b' =>
      if (Byte.to_N x <? Byte.to_N y)%N then true
      else if (Byte.to_N y <? Byte.to_N x)%N then false
      else key_leb a' b'
  end.

Fixpoint sorted_keys (ks : list key) : bool :=
  match ks with
  | k1 :: (k2 :: _) as rest => key_leb k1 k2 && sorted_keys rest
  | _ => true
  end.

(** * What the further properties are stated with *)

(** ** Well-formed measurement files *)






(** ** The records of a range *)

(** What [process_line] takes from a line: nothing when the line has no
    [';'], else the record it updates the table with; no result when a read
    of [parse_float] has no value. *)
Definition line_record (data : list byte) (line : string_view)
  : option (option record) :=
  match sv_bytes data line with
  | None => None
  | Some bs =>
      match find_byte char_semi bs with
      | None => Some None
      | Some delimiter_pos =>
          match parse_float (skipn (sv_data line + delimiter_pos + 1) data)
                            (sv_size line - delimiter_pos - 1) with
          | None => None
          | Some temperature_num =>
              Some (Some (firstn delimiter_pos bs, temperature_num))
          end
      end
  end.

Fixpoint records_of_views (data : list byte) (vs : list string_view)
  : option (list record) :=
  match vs with
  | [] => Some []
  | v :: vs' =>
      match line_record data v, records_of_views data vs' with
      | Some r, Some rs => Some (match r with Some x => x :: rs | None => rs end)
      | _, _ => None
      end
  end.

(** The records of the lines of the range [start_pos, end). *)
Definition chunk_records (data : list byte) (start_pos end_ : nat)
  : option (list record) :=
  records_of_views data
    (LineSpec.views_from start_pos
       (LineSpec.split_lines (firstn (end_ - start_pos) (skipn start_pos data)))).

(** The byte before position [b] is a newline, or [b] is the start. *)
Definition after_newline (data : list byte) (b : nat) : Prop :=
  b = 0 \/ nth_error data (b - 1) = Some char_nl.

(** Ranges that follow one another from [s] to [e]. *)
Inductive chained : nat -> list (nat * nat) -> nat -> Prop :=
| chained_nil s : chained s [] s
| chained_cons s mid e rest :
    s <= mid -> chained mid rest e -> chained s ((s, mid) :: rest) e.

(** The range of thread [i], as positions in the mapping. *)
Definition thread_range (data : list byte) (num_threads : Z) (i : Z) : nat * nat :=
  (Z.to_nat (fst (chunk_range (Z.of_nat (length data)) num_threads i)),
   Z.to_nat (snd (chunk_range (Z.of_nat (length data)) num_threads i))).

(** * The insertion-order table is an [UnorderedMap] *)

Module InsertionOrderFacts.
Import InsertionOrder.

Lemma key_eqb_eq a b : key_eqb a b = true <-> a = b.
Proof. unfold key_eqb. destruct (key_eq_dec a b); split; congruence. Qed.

Lemma key_eqb_refl a : key_eqb a a = true.
Proof. now apply key_eqb_eq. Qed.

Lemma find_modify k f m k' :
  find k' (modify k f m) =
  if key_eq_dec k k'
  then Some (f (match find k m with Some v => v | None => locationData_init end))
  else find k' m.
Proof.
  induction m as [|[k0 v0] m IH]; simpl.
  - unfold key_eqb. destruct (key_eq_dec k' k), (key_eq_dec k k'); congruence.
  - unfold key_eqb in *.
    destruct (key_eq_dec k k0) as [->|Hk0]; simpl.
    + unfold key_eqb. destruct (key_eq_dec k' k0), (key_eq_dec k0 k'); congruence.
    + unfold key_eqb. rewrite IH.
      destruct (key_eq_dec k' k0), (key_eq_dec k k'); congruence.
Qed.

Lemma items_nodup m : NoDup (map fst (items m)).
Proof.
  induction m as [|[k0 v0] m IH]; simpl; constructor.
  - intro H. apply in_map_iff in H. destruct H as [[k v] [Hk H]].
    apply filter_In in H. simpl in *. subst k.
    rewrite key_eqb_refl in H. destruct H; discriminate.
  - clear -IH. induction (items m) as [|[k v] l IHl]; simpl; auto.
    inversion IH; subst.
    destruct (negb (key_eqb k0 k)); simpl; auto.
    constructor; auto.
    intro H. apply H1. apply in_map_iff in H. destruct H as [kv [<- H]].
    apply filter_In in H. apply in_map. tauto.
Qed.

Lemma items_find m k v : In (k, v) (items m) <-> find k m = Some v.
Proof.
  induction m as [|[k0 v0] m IH]; simpl.
  - split; [tauto | discriminate].
  - rewrite filter_In, IH. simpl. unfold key_eqb.
    destruct (key_eq_dec k k0) as [->|Hk].
    + destruct (key_eq_dec k0 k0); [|congruence]. simpl.
      split; [intros [H|[_ H]]; congruence | intros H; left; congruence].
    + destruct (key_eq_dec k0 k); [congruence|]. simpl.
      split; [intros [H|[H _]]; congruence | tauto].
Qed.

Lemma rev_items_nodup m : NoDup (map fst (rev (items m))).
Proof. rewrite map_rev. apply NoDup_rev. apply items_nodup. Qed.

Lemma rev_items_find m k v : In (k, v) (rev (items m)) <-> find k m = Some v.
Proof. rewrite <- in_rev. apply items_find. Qed.

End InsertionOrderFacts.

#[export] Instance insertion_order_map : UnorderedMap := {|
  umap := InsertionOrder.table;
  um_empty := [];
  um_find := InsertionOrder.find;
  um_modify := InsertionOrder.modify;
  um_items := InsertionOrder.items;
  um_find_empty := fun _ => eq_refl;
  um_find_modify := InsertionOrderFacts.find_modify;
  um_items_nodup := InsertionOrderFacts.items_nodup;
  um_items_find := InsertionOrderFacts.items_find
|}.

#[global] Arguments F32.add : simpl never.
#[global] Arguments F32.mul : simpl never.
#[global] Arguments F32.div : simpl never.
#[global] Arguments F32.of_Z : simpl never.
#[global] Arguments digit : simpl never.

(** A second table: the same entries, iterated from the newest key to the
    oldest, which is how a chained hash table whose new nodes go to the
    front of its node list iterates while no two keys share a bucket. *)
Definition newest_first_map : UnorderedMap := {|
  umap := InsertionOrder.table;
  um_empty := [];
  um_find := InsertionOrder.find;
  um_modify := InsertionOrder.modify;
  um_items := fun m => rev (InsertionOrder.items m);
  um_find_empty := fun _ => eq_refl;
  um_find_modify := InsertionOrderFacts.find_modify;
  um_items_nodup := InsertionOrderFacts.rev_items_nodup;
  um_items_find := InsertionOrderFacts.rev_items_find
|}.

(** * Facts about binary32 comparison *)

Module F32Order.

Local Open Scope Z_scope.

(** Order-preserving position of a float that is not a NaN: its class
    (negative infinity, negative, zero, positive, positive infinity), then
    exponent and mantissa, both negated for negative numbers.  The two
    zeros share a position. *)
Definition rank (x : float) : Z * Z * Z :=
  match x with
  | S754_infinity true => (-2, 0, 0)
  | S754_finite true m e => (-1, - e, Zneg m)
  | S754_zero _ => (0, 0, 0)
  | S754_nan => (0, 0, 0)
  | S754_finite false m e => (1, e, Zpos m)
  | S754_infinity false => (2, 0, 0)
  end.

Definition lex3 (a b : Z * Z * Z) : comparison :=
  match fst (fst a) ?= fst (fst b) with
  | Eq => match snd (fst a) ?= snd (fst b) with
          | Eq => snd a ?= snd b
          | c => c
          end
  | c => c
  end.

Definition lex_lt (a b : Z * Z * Z) : Prop :=
  fst (fst a) < fst (fst b) \/
  (fst (fst a) = fst (fst b) /\
   (snd (fst a) < snd (fst b) \/ (snd (fst a) = snd (fst b) /\ snd a < snd b))).

Lemma lex3_Lt a b : lex3 a b = Lt <-> lex_lt a b.
Proof.
  unfold lex3, lex_lt.
  destruct (Z.compare_spec (fst (fst a)) (fst (fst b)));
    destruct (Z.compare_spec (snd (fst a)) (snd (fst b)));
    destruct (Z.compare_spec (snd a) (snd b));
    split; intros; try discriminate; try reflexivity; lia.
Qed.

Lemma lex3_Gt a b : lex3 a b = Gt <-> lex_lt b a.
Proof.
  unfold lex3, lex_lt.
  destruct (Z.compare_spec (fst (fst a)) (fst (fst b)));
    destruct (Z.compare_spec (snd (fst a)) (snd (fst b)));
    destruct (Z.compare_spec (snd a) (snd b));
    split; intros; try discriminate; try reflexivity; lia.
Qed.

Lemma lex3_Eq a b : lex3 a b = Eq <-> a = b.
Proof.
  unfold lex3. destruct a as [[a1 a2] a3], b as [[b1 b2] b3]; simpl.
  destruct (Z.compare_spec a1 b1); destruct (Z.compare_spec a2 b2);
    destruct (Z.compare_spec a3 b3);
    split; intros H'; try discriminate; try (inversion H'; lia);
    subst; reflexivity.
Qed.

Lemma compare_rank x y :
  F32.is_nan x = false -> F32.is_nan y = false ->
  SFcompare x y = Some (lex3 (rank x) (rank y)).
Proof.
  destruct x as [sx|sx| |sx mx ex], y as [sy|sy| |sy my ey];
    try discriminate; intros _ _;
    try (destruct sx); try (destruct sy); try reflexivity.
  unfold SFcompare, rank, lex3; simpl fst; simpl snd.
  rewrite Z.compare_opp, (Z.compare_antisym ex ey).
  destruct (ex ?= ey); reflexivity.
Qed.

Definition le (x y : float) : Prop := F32.leb x y = true.
Definition lt (x y : float) : Prop := F32.ltb x y = true.
(** [x == y] in C++: equal numbers; the two zeros are equal. *)
Definition eqv (x y : float) : Prop := F32.eqb x y = true.

Lemma le_not_nan x y : le x y -> F32.is_nan x = false /\ F32.is_nan y = false.
Proof.
  unfold le, F32.leb, SFleb.
  destruct x, y; simpl; try discriminate; auto.
Qed.

Lemma lt_not_nan x y : lt x y -> F32.is_nan x = false /\ F32.is_nan y = false.
Proof.
  unfold lt, F32.ltb, SFltb.
  destruct x, y; simpl; try discriminate; auto.
Qed.

Lemma le_rank x y :
  le x y <->
  F32.is_nan x = false /\ F32.is_nan y = false /\ ~ lex_lt (rank y) (rank x).
Proof.
  split.
  - intros H. destruct (le_not_nan _ _ H) as [Hx Hy]. repeat split; auto.
    unfold le, F32.leb, SFleb in H. rewrite (compare_rank _ _ Hx Hy) in H.
    rewrite <- lex3_Gt. destruct (lex3 (rank x) (rank y)); congruence.
  - intros (Hx & Hy & H). unfold le, F32.leb, SFleb.
    rewrite (compare_rank _ _ Hx Hy). rewrite <- lex3_Gt in H.
    destruct (lex3 (rank x) (rank y)); congruence.
Qed.

Lemma lt_rank x y :
  lt x y <->
  F32.is_nan x = false /\ F32.is_nan y = false /\ lex_lt (rank x) (rank y).
Proof.
  split.
  - intros H. destruct (lt_not_nan _ _ H) as [Hx Hy]. repeat split; auto.
    unfold lt, F32.ltb, SFltb in H. rewrite (compare_rank _ _ Hx Hy) in H.
    rewrite <- lex3_Lt. destruct (lex3 (rank x) (rank y)); congruence.
  - intros (Hx & Hy & H). unfold lt, F32.ltb, SFltb.
    rewrite (compare_rank _ _ Hx Hy). rewrite <- lex3_Lt in H. now rewrite H.
Qed.

Lemma eqv_rank x y :
  eqv x y <->
  F32.is_nan x = false /\ F32.is_nan y = false /\ rank x = rank y.
Proof.
  split.
  - intros H.
    assert (Hn : F32.is_nan x = false /\ F32.is_nan y = false).
    { unfold eqv, F32.eqb, SFeqb in H.
      destruct x, y; simpl in *; try discriminate; auto. }
    destruct Hn as [Hx Hy]. repeat split; auto.
    unfold eqv, F32.eqb, SFeqb in H. rewrite (compare_rank _ _ Hx Hy) in H.
    rewrite <- lex3_Eq. destruct (lex3 (rank x) (rank y)); congruence.
  - intros (Hx & Hy & H). unfold eqv, F32.eqb, SFeqb.
    rewrite (compare_rank _ _ Hx Hy). rewrite <- lex3_Eq in H. now rewrite H.
Qed.

Lemma le_refl x : F32.is_nan x = false -> le x x.
Proof. intros H. apply le_rank. repeat split; auto. unfold lex_lt. lia. Qed.

Lemma le_trans x y z : le x y -> le y z -> le x z.
Proof.
  rewrite !le_rank. unfold lex_lt. intros (? & ? & ?) (? & ? & ?).
  repeat split; auto. lia.
Qed.

Lemma lt_le x y : lt x y -> le x y.
Proof.
  rewrite lt_rank, le_rank. unfold lex_lt. intros (? & ? & ?).
  repeat split; auto. lia.
Qed.

Lemma not_lt_le x y :
  F32.is_nan x = false -> F32.is_nan y = false -> F32.ltb x y = false -> le y x.
Proof.
  intros Hx Hy H. apply le_rank. repeat split; auto.
  intro Hlt. assert (lt x y) by (apply lt_rank; auto).
  unfold lt in *. congruence.
Qed.

Lemma le_antisym x y : le x y -> le y x -> eqv x y.
Proof.
  rewrite !le_rank, eqv_rank. unfold lex_lt. intros (? & ? & ?) (? & ? & ?).
  repeat split; auto.
  destruct (rank x) as [[a b] c], (rank y) as [[a' b'] c']; simpl in *.
  repeat f_equal; lia.
Qed.


End F32Order.

(** * Where a NaN cannot arise *)

Module F32Nan.

Local Open Scope Z_scope.

Lemma iter_pos_inv {A} (P : A -> Prop) (f : A -> A) :
  (forall x, P x -> P (f x)) -> forall n x, P x -> P (iter_pos f n x).
Proof. intros Hf. induction n; simpl; auto. Qed.

Lemma shr_1_nonneg mrs : 0 <= shr_m mrs -> 0 <= shr_m (shr_1 mrs).
Proof.
  destruct mrs as [m r s]. simpl.
  destruct m as [|p|p]; simpl; try lia; destruct p; simpl; lia.
Qed.

Lemma shr_nonneg mrs e n : 0 <= shr_m mrs -> 0 <= shr_m (fst (shr mrs e n)).
Proof.
  intros H. destruct n; simpl; auto.
  now apply iter_pos_inv; [apply shr_1_nonneg|].
Qed.

Lemma shr_fexp_nonneg prec emax m e l :
  0 <= m -> 0 <= shr_m (fst (shr_fexp prec emax m e l)).
Proof.
  intros H. unfold shr_fexp. apply shr_nonneg.
  destruct l as [|[]]; simpl; auto.
Qed.

Lemma round_nearest_even_nonneg m l : 0 <= m -> 0 <= round_nearest_even m l.
Proof.
  intros H. destruct l as [|[]]; simpl; auto; try lia.
  destruct (Z.even m); lia.
Qed.

Lemma binary_round_aux_not_nan prec emax sx mx ex lx :
  0 <= mx -> F32.is_nan (binary_round_aux prec emax sx mx ex lx) = false.
Proof.
  intros H. unfold binary_round_aux.
  pose proof (shr_fexp_nonneg prec emax mx ex lx H) as H1.
  destruct (shr_fexp prec emax mx ex lx) as [mrs' e']. simpl in H1.
  pose proof (shr_fexp_nonneg prec emax _ e' loc_Exact
                (round_nearest_even_nonneg _ (loc_of_shr_record mrs') H1)) as H2.
  destruct (shr_fexp prec emax _ e' loc_Exact) as [mrs'' e'']. simpl in H2.
  destruct (shr_m mrs''); try lia; auto.
  destruct (e'' <=? emax - prec); reflexivity.
Qed.

Lemma binary_round_not_nan prec emax sx mx ex :
  F32.is_nan (binary_round prec emax sx mx ex) = false.
Proof.
  unfold binary_round. destruct (shl_align _ _ _) as [mz ez].
  apply binary_round_aux_not_nan. lia.
Qed.

Lemma binary_normalize_not_nan prec emax m e szero :
  F32.is_nan (binary_normalize prec emax m e szero) = false.
Proof. destruct m; simpl; auto using binary_round_not_nan. Qed.

(** Multiplying by a finite non-zero float gives a NaN only from a NaN. *)
Lemma mul_not_nan x sy my ey :
  F32.is_nan x = false -> F32.is_nan (F32.mul x (S754_finite sy my ey)) = false.
Proof.
  destruct x; try discriminate; intros _; try reflexivity.
  apply binary_round_aux_not_nan. lia.
Qed.

(** Adding a zero or a finite float gives a NaN only from a NaN. *)
Lemma add_not_nan x y :
  F32.is_nan x = false -> F32.is_finite y = true ->
  F32.is_nan (F32.add x y) = false.
Proof.
  destruct x as [sx|sx| |sx mx ex], y as [sy|sy| |sy my ey];
    try discriminate; intros _ _; try reflexivity.
  - destruct sx, sy; reflexivity.
  - apply binary_normalize_not_nan.
Qed.

Lemma of_Z_not_nan n : F32.is_nan (F32.of_Z n) = false.
Proof. apply binary_normalize_not_nan. Qed.

Lemma opp_not_nan x : F32.is_nan (F32.opp x) = F32.is_nan x.
Proof. destruct x; reflexivity. Qed.

End F32Nan.

(** * Facts about parse_float *)

Module ParseFloatFacts.

(** The value of [fraction] after [k] rounds of [fraction *= 0.1f]. *)
Definition frac_pow (k : nat) : float :=
  Nat.iter k (fun f => F32.mul f F32.tenth) F32.one.

Lemma digit_finite c : F32.is_finite (digit c) = true.
Proof. destruct c; vm_compute; reflexivity. Qed.

(** [fraction] underflows to zero after 46 rounds and stays there. *)
Lemma frac_pow_zero k : 46 <= k -> frac_pow k = F32.zero.
Proof.
  induction 1 as [|k Hk IH].
  - vm_compute. reflexivity.
  - unfold frac_pow in *. simpl. rewrite IH. reflexivity.
Qed.

Lemma digit_frac_first c :
  forallb (fun k => F32.is_finite (F32.mul (digit c) (frac_pow k))) (seq 0 46) = true.
Proof. destruct c; vm_compute; reflexivity. Qed.

(** No term of the fractional sum overflows. *)
Lemma digit_frac_finite c k : F32.is_finite (F32.mul (digit c) (frac_pow k)) = true.
Proof.
  destruct (Nat.lt_ge_cases k 46) as [Hk|Hk].
  - pose proof (digit_frac_first c) as H. rewrite forallb_forall in H.
    apply H. apply in_seq. lia.
  - rewrite (frac_pow_zero _ Hk). pose proof (digit_finite c) as H.
    destruct (digit c); try discriminate; reflexivity.
Qed.

Section Loops.

Variable str : list byte.

Lemma int_loop_inv left : forall i r log,
  F32.is_nan r = false ->
  (exists extra, snd (int_loop str left i r log) = log ++ extra /\
                 Forall (fun j => i <= j < i + left) extra) /\
  (forall i' r', fst (int_loop str left i r log) = Some (i', r') ->
                 i <= i' <= i + left /\ F32.is_nan r' = false).
Proof.
  induction left as [|left IH]; intros i r log Hr; simpl.
  - split.
    + exists []. now rewrite app_nil_r.
    + intros i' r' H. inversion H; subst. split; [lia|assumption].
  - unfold Rd.bind, Rd.load. destruct (nth_error str i) as [c|].
    + destruct (Byte.eqb c char_point).
      * split.
        -- exists [i]. split; auto. constructor; auto. lia.
        -- intros i' r' H. inversion H; subst. split; [lia|assumption].
      * assert (Hr' : F32.is_nan (F32.add (F32.mul r F32.ten) (digit c)) = false).
        { apply F32Nan.add_not_nan; [|apply digit_finite].
          now apply F32Nan.mul_not_nan. }
        destruct (IH (S i) _ (log ++ [i]) Hr') as [[extra [He Hf]] Hv].
        split.
        -- exists (i :: extra). rewrite He, <- app_assoc. split; auto.
           constructor; [lia|].
           eapply Forall_impl; [|exact Hf]. simpl. intros; lia.
        -- intros i' r' H. destruct (Hv _ _ H). split; [lia|assumption].
    + split.
      * exists [i]. split; auto. constructor; auto. lia.
      * discriminate.
Qed.

Lemma frac_loop_inv left : forall i k r log,
  F32.is_nan r = false ->
  (exists extra, snd (frac_loop str left i (frac_pow k) r log) = log ++ extra /\
                 Forall (fun j => i <= j < i + left) extra) /\
  (forall r', fst (frac_loop str left i (frac_pow k) r log) = Some r' ->
              F32.is_nan r' = false).
Proof.
  induction left as [|left IH]; intros i k r log Hr; simpl.
  - split.
    + exists []. now rewrite app_nil_r.
    + intros r' H. inversion H; subst. assumption.
  - unfold Rd.bind, Rd.load. destruct (nth_error str i) as [c|].
    + change (F32.mul (frac_pow k) F32.tenth) with (frac_pow (S k)).
      assert (Hr' : F32.is_nan
                      (F32.add r (F32.mul (digit c) (frac_pow (S k)))) = false).
      { apply F32Nan.add_not_nan; auto. apply digit_frac_finite. }
      destruct (IH (S i) (S k) _ (log ++ [i]) Hr') as [[extra [He Hf]] Hv].
      split; auto.
      exists (i :: extra). rewrite He, <- app_assoc. split; auto.
      constructor; [lia|].
      eapply Forall_impl; [|exact Hf]. simpl. intros; lia.
    + split.
      * exists [i]. split; auto. constructor; auto. lia.
      * discriminate.
Qed.

(** What is shown of a run of [parse_float]: reads inside the span when
    the span is not empty, index 0 read first, no NaN returned. *)
Definition run_ok (len : nat) (res : option float * list nat) : Prop :=
  (1 <= len -> Forall (fun j => j < len) (snd res)) /\
  (exists rest, snd res = 0 :: rest) /\
  (forall v, fst res = Some v -> F32.is_nan v = false).

Lemma run_ok_intro len (o : option float) extra :
  Forall (fun j => j < len) extra ->
  (forall v, o = Some v -> F32.is_nan v = false) ->
  run_ok len (o, 0 :: extra).
Proof.
  intros Hf Hv. split; [|split]; simpl; eauto.
Qed.

Lemma parse_float_rd_inv len : run_ok len (parse_float_rd str len []).
Proof.
  unfold parse_float_rd, Rd.bind at 1, Rd.load at 1. simpl app.
  destruct (nth_error str 0) as [c0|].
  2:{ apply run_ok_intro; [apply Forall_nil | discriminate]. }
  set (i0 := if Byte.eqb c0 char_minus then 1 else 0).
  assert (Hi0 : i0 <= 1) by (subst i0; destruct (Byte.eqb c0 char_minus); lia).
  assert (Hneg : forall r, F32.is_nan r = false ->
            forall v, Some (if Byte.eqb c0 char_minus then F32.opp r else r) = Some v ->
                      F32.is_nan v = false).
  { intros r Hr v Hv. inversion Hv; subst.
    destruct (Byte.eqb c0 char_minus); [rewrite F32Nan.opp_not_nan|]; auto. }
  unfold Rd.bind at 1.
  destruct (int_loop_inv (len - i0) i0 F32.zero [0] eq_refl)
    as [[e1 [He1 Hf1]] Hv1].
  assert (Hf1' : Forall (fun j => j < len) e1).
  { eapply Forall_impl; [|exact Hf1]. simpl. intros; lia. }
  destruct (int_loop str (len - i0) i0 F32.zero [0]) as [[[i r]|] log1];
    simpl in He1, Hv1; subst log1.
  2:{ apply run_ok_intro; [assumption | discriminate]. }
  destruct (Hv1 _ _ eq_refl) as [Hi Hr].
  unfold Rd.bind at 1.
  destruct (i <? len) eqn:Hlt.
  - apply Nat.ltb_lt in Hlt.
    unfold Rd.bind at 1, Rd.load at 1.
    destruct (nth_error str i) as [c|].
    2:{ apply run_ok_intro; [|discriminate].
        apply Forall_app. split; auto. }
    destruct (Byte.eqb c char_point).
    + destruct (frac_loop_inv (len - S i) (S i) 0 r ((0 :: e1) ++ [i]) Hr)
        as [[e2 [He2 Hf2]] Hv2].
      change (frac_pow 0) with F32.one in *.
      assert (Hf2' : Forall (fun j => j < len) e2).
      { eapply Forall_impl; [|exact Hf2]. simpl. intros; lia. }
      destruct (frac_loop str (len - S i) (S i) F32.one r ((0 :: e1) ++ [i]))
        as [[r2|] log2]; simpl in He2, Hv2; subst log2;
        unfold Rd.ret; simpl app.
      * apply run_ok_intro; [|apply Hneg; auto].
        rewrite !Forall_app. repeat split; auto.
      * apply run_ok_intro; [|discriminate].
        rewrite !Forall_app. repeat split; auto.
    + unfold Rd.ret; simpl app. apply run_ok_intro; [|apply Hneg; auto].
      rewrite !Forall_app. repeat split; auto.
  - unfold Rd.ret; simpl app. apply run_ok_intro; [|apply Hneg; auto].
    assumption.
Qed.

End Loops.

(** [parse_float] never returns a NaN. *)
Lemma parse_float_not_nan str len v :
  parse_float str len = Some v -> F32.is_nan v = false.
Proof. apply (parse_float_rd_inv str len). Qed.

Lemma parse_float_reads_bounded str len :
  1 <= len -> Forall (fun j => j < len) (parse_float_reads str len).
Proof. apply (parse_float_rd_inv str len). Qed.

Lemma parse_float_reads_first str len :
  exists rest, parse_float_reads str len = 0 :: rest.
Proof. apply (parse_float_rd_inv str len). Qed.

End ParseFloatFacts.

Module ParseFloatRefinement.
Import NumericSpec.

Lemma nth_error_middle {A} (pre : list A) c post :
  nth_error (pre ++ c :: post) (length pre) = Some c.
Proof. induction pre; simpl; auto. Qed.

Lemma digit_not_point c : is_digit c = true -> Byte.eqb c char_point = false.
Proof. destruct c; try discriminate; reflexivity. Qed.

Lemma digit_not_minus c : is_digit c = true -> Byte.eqb c char_minus = false.
Proof. destruct c; try discriminate; reflexivity. Qed.

Lemma int_loop_digits ds : forall pre post left r log,
  Forall (fun c => is_digit c = true) ds ->
  left = length ds \/ (length ds < left /\ exists post', post = char_point :: post') ->
  fst (int_loop (pre ++ ds ++ post) left (length pre) r log) =
  Some (length pre + length ds,
        fold_left (fun result d => F32.add (F32.mul result F32.ten) (digit d)) ds r).
Proof.
  induction ds as [|d ds IH]; intros pre post left r log Hd Hl.
  - simpl. rewrite Nat.add_0_r. destruct Hl as [->|[Hlt [post' ->]]]; [reflexivity|].
    destruct left as [|left]; [reflexivity|]. simpl.
    unfold Rd.bind, Rd.load. rewrite nth_error_middle. reflexivity.
  - inversion Hd as [|? ? Hd1 Hd2]; subst.
    destruct left as [|left]; [simpl in Hl; destruct Hl as [?|[? _]]; lia|].
    simpl int_loop. unfold Rd.bind, Rd.load.
    simpl app. rewrite nth_error_middle, (digit_not_point _ Hd1).
    replace (pre ++ d :: ds ++ post) with ((pre ++ [d]) ++ ds ++ post)
      by (rewrite <- app_assoc; reflexivity).
    replace (S (length pre)) with (length (pre ++ [d]))
      by (rewrite length_app; simpl; lia).
    rewrite IH; auto.
    + rewrite length_app. simpl. f_equal. f_equal. lia.
    + simpl in Hl. destruct Hl as [Hl|[Hl Hp]]; [left; lia | right; split; [lia|auto]].
Qed.

Lemma frac_loop_digits fs : forall pre post fraction r log,
  fst (frac_loop (pre ++ fs ++ post) (length fs) (length pre) fraction r log) =
  Some (snd (fold_left fraction_step fs (fraction, r))).
Proof.
  induction fs as [|d fs IH]; intros pre post fraction r log; [reflexivity|].
  simpl frac_loop. unfold Rd.bind, Rd.load.
  simpl app. rewrite nth_error_middle.
  replace (pre ++ d :: fs ++ post) with ((pre ++ [d]) ++ fs ++ post)
    by (rewrite <- app_assoc; reflexivity).
  replace (S (length pre)) with (length (pre ++ [d]))
    by (rewrite length_app; simpl; lia).
  rewrite IH. reflexivity.
Qed.

Lemma fst_bind {A B} (m : Rd.t A) (f : A -> Rd.t B) log :
  fst (Rd.bind m f log) =
  match fst (m log) with
  | Some a => fst (f a (snd (m log)))
  | None => None
  end.
Proof. unfold Rd.bind. destruct (m log) as [[a|] log']; reflexivity. Qed.

Lemma fst_bind_load {B} str i (f : byte -> Rd.t B) log :
  fst (Rd.bind (Rd.load str i) f log) =
  match nth_error str i with
  | Some c => fst (f c (log ++ [i]))
  | None => None
  end.
Proof. unfold Rd.bind, Rd.load. destruct (nth_error str i); reflexivity. Qed.

(** On a non-empty span of the grammar, followed by any bytes [rest],
    [parse_float] returns the value the specification assigns. *)
Lemma parse_float_value l rest :
  well_formed l -> lit_bytes l <> [] ->
  parse_float (lit_bytes l ++ rest) (length (lit_bytes l)) = Some (value l).
Proof.
  destruct l as [neg ds frac]. unfold well_formed, lit_bytes, value.
  cbn [lit_minus lit_int lit_frac]. intros [Hds Hfs] Hne.
  set (sign := if neg then [char_minus] else []).
  set (tail := match frac with Some fs => char_point :: fs | None => [] end).
  assert (Hc0 : exists c0, nth_error ((sign ++ ds ++ tail) ++ rest) 0 = Some c0 /\
                           Byte.eqb c0 char_minus = neg).
  { subst sign tail. destruct neg; simpl; [eauto|].
    destruct ds as [|d ds]; simpl.
    - destruct frac as [fs|]; simpl in *; [eauto | congruence].
    - inversion Hds; subst. eauto using digit_not_minus. }
  destruct Hc0 as [c0 [Hc0 Hneg]].
  unfold parse_float, Rd.run, parse_float_rd.
  rewrite fst_bind_load, Hc0, Hneg.
  assert (Hsign : length sign = if neg then 1 else 0) by (subst sign; now destruct neg).
  rewrite <- Hsign.
  rewrite fst_bind.
  replace ((sign ++ ds ++ tail) ++ rest) with (sign ++ ds ++ (tail ++ rest))
    by (now rewrite !app_assoc).
  rewrite int_loop_digits; auto.
  2:{ rewrite !length_app. subst tail. destruct frac as [fs|]; simpl.
      - right. split; [lia|eauto].
      - left. lia. }
  rewrite fst_bind.
  fold (integer_part ds).
  destruct frac as [fs|]; subst tail.
  - replace (length sign + length ds <? length (sign ++ ds ++ char_point :: fs))
      with true
      by (symmetry; apply Nat.ltb_lt; rewrite !length_app; simpl; lia).
    rewrite fst_bind_load.
    replace (sign ++ ds ++ (char_point :: fs) ++ rest)
      with ((sign ++ ds) ++ char_point :: fs ++ rest)
      by (now rewrite <- !app_assoc).
    rewrite <- length_app, nth_error_middle.
    change (Byte.eqb char_point char_point) with true. cbv iota.
    replace ((sign ++ ds) ++ char_point :: fs ++ rest)
      with (((sign ++ ds) ++ [char_point]) ++ fs ++ rest)
      by (now rewrite <- !app_assoc).
    replace (length (sign ++ ds ++ char_point :: fs) - S (length (sign ++ ds)))
      with (length fs)
      by (rewrite !length_app; simpl; lia).
    replace (S (length (sign ++ ds))) with (length ((sign ++ ds) ++ [char_point]))
      by (rewrite (length_app (sign ++ ds)); simpl; lia).
    rewrite frac_loop_digits. reflexivity.
  - replace (length sign + length ds <? length (sign ++ ds ++ []))
      with false
      by (symmetry; apply Nat.ltb_ge; rewrite !length_app; simpl; lia).
    reflexivity.
Qed.

End ParseFloatRefinement.

(** * Facts about process_chunk *)

Module ChunkFacts.
Import LineSpec.

Lemma eqb_nl_false c : Byte.eqb c char_nl = false <-> c <> char_nl.
Proof.
  split; [apply Byte.eqb_false|].
  intros H. destruct (Byte.eqb c char_nl) eqn:E; auto.
  apply Byte.byte_dec_bl in E. contradiction.
Qed.

Lemma newline_free_cons c l :
  newline_free (c :: l) <-> Byte.eqb c char_nl = false /\ newline_free l.
Proof.
  unfold newline_free. rewrite eqb_nl_false. simpl. intuition congruence.
Qed.

Lemma newline_free_nil : newline_free [].
Proof. intros []. Qed.

Lemma lines_of_cons c bs ls :
  Byte.eqb c char_nl = false -> lines_of bs ls ->
  lines_of (c :: bs) (match ls with [] => [[c]] | l :: ls' => (c :: l) :: ls' end).
Proof.
  intros Hc H. inversion H; subst.
  - apply lines_last; [|discriminate].
    apply newline_free_cons. split; [assumption|apply newline_free_nil].
  - apply lines_last; [|discriminate]. now apply newline_free_cons.
  - apply (lines_next (c :: l)); [|assumption]. now apply newline_free_cons.
Qed.

Lemma split_lines_spec bs : lines_of bs (split_lines bs).
Proof.
  induction bs as [|b bs IH]; simpl; [constructor|].
  destruct (Byte.eqb b char_nl) eqn:E.
  - apply Byte.byte_dec_bl in E. subst b.
    apply (lines_next []); [apply newline_free_nil | assumption].
  - now apply lines_of_cons.
Qed.

(** The segments are determined by the range. *)
Lemma lines_of_unique bs ls : lines_of bs ls -> ls = split_lines bs.
Proof.
  induction 1 as [|l Hl Hne|l bs ls Hl H IH].
  - reflexivity.
  - induction l as [|c l IHl]; [congruence|].
    apply newline_free_cons in Hl. destruct Hl as [Hc Hl]. simpl. rewrite Hc.
    destruct l as [|c' l]; [reflexivity|].
    rewrite <- IHl; [reflexivity|assumption|discriminate].
  - subst ls. induction l as [|c l IHl]; simpl.
    + reflexivity.
    + apply newline_free_cons in Hl. destruct Hl as [Hc Hl]. rewrite Hc.
      rewrite <- (IHl Hl). reflexivity.
Qed.

Lemma scan_line_segment l : forall pre rest left,
  newline_free l ->
  left = length l \/ (length l < left /\ exists rest', rest = char_nl :: rest') ->
  scan_line (pre ++ l ++ rest) left (length pre) = Some (length pre + length l).
Proof.
  induction l as [|c l IH]; intros pre rest left Hl Hleft.
  - simpl. rewrite Nat.add_0_r. destruct Hleft as [->|[Hlt [rest' ->]]]; [reflexivity|].
    destruct left as [|left]; [reflexivity|]. simpl.
    rewrite ParseFloatRefinement.nth_error_middle. reflexivity.
  - apply newline_free_cons in Hl. destruct Hl as [Hc Hl].
    destruct left as [|left]; [simpl in Hleft; destruct Hleft as [?|[? _]]; lia|].
    simpl. rewrite ParseFloatRefinement.nth_error_middle, Hc.
    replace (pre ++ c :: l ++ rest) with ((pre ++ [c]) ++ l ++ rest)
      by (rewrite <- app_assoc; reflexivity).
    replace (S (length pre)) with (length (pre ++ [c]))
      by (rewrite length_app; simpl; lia).
    rewrite IH; auto.
    + rewrite length_app. simpl. f_equal. lia.
    + simpl in Hleft.
      destruct Hleft as [?|[? ?]]; [left; lia | right; split; [lia|auto]].
Qed.

Section Handler.

Context {State : Type}.
Variable handler : string_view -> State -> option State.

Lemma chunk_loop_past data end_ fuel i s :
  end_ <= i -> chunk_loop handler data end_ fuel i s = Some s.
Proof.
  intros H. destruct fuel; simpl; apply Nat.leb_le in H; now rewrite H.
Qed.

Lemma chunk_loop_lines bs ls :
  lines_of bs ls ->
  forall fuel pre post s,
    length bs <= fuel ->
    chunk_loop handler (pre ++ bs ++ post) (length pre + length bs) fuel (length pre) s =
    fold_handler handler (views_from (length pre) ls) s.
Proof.
  induction 1 as [|l Hl Hne|l bs ls Hl H IH]; intros fuel pre post s Hfuel.
  - simpl. apply chunk_loop_past. lia.
  - destruct l as [|c l]; [congruence|].
    destruct fuel as [|fuel]; [simpl in Hfuel; lia|].
    cbn [chunk_loop].
    replace (length pre + length (c :: l) <=? length pre) with false
      by (symmetry; apply Nat.leb_gt; simpl; lia).
    replace (length pre + length (c :: l) - length pre) with (length (c :: l)) by lia.
    rewrite scan_line_segment; auto.
    replace (length pre + length (c :: l) - length pre) with (length (c :: l)) by lia.
    cbn [views_from fold_handler].
    destruct (handler _ s) as [s'|]; [|reflexivity].
    apply chunk_loop_past. lia.
  - destruct fuel as [|fuel]; [rewrite length_app in Hfuel; simpl in Hfuel; lia|].
    cbn [chunk_loop].
    replace (length pre + length (l ++ char_nl :: bs) <=? length pre) with false
      by (symmetry; apply Nat.leb_gt; rewrite length_app; simpl; lia).
    rewrite <- (app_assoc l).
    rewrite scan_line_segment; auto.
    2:{ right. rewrite length_app. simpl. split; [lia|eauto]. }
    replace (length pre + length l - length pre) with (length l) by lia.
    cbn [views_from fold_handler].
    destruct (handler _ s) as [s'|]; [|reflexivity].
    replace (pre ++ l ++ (char_nl :: bs) ++ post)
      with ((pre ++ l ++ [char_nl]) ++ bs ++ post)
      by (rewrite <- !app_assoc; reflexivity).
    replace (length pre + length (l ++ char_nl :: bs))
      with (length (pre ++ l ++ [char_nl]) + length bs)
      by (rewrite !length_app; simpl; lia).
    replace (S (length pre + length l)) with (length (pre ++ l ++ [char_nl]))
      by (rewrite !length_app; simpl; lia).
    replace (length pre + length l + 1) with (length (pre ++ l ++ [char_nl]))
      by (rewrite !length_app; simpl; lia).
    apply IH. rewrite length_app in Hfuel. simpl in Hfuel. lia.
Qed.

End Handler.

Lemma sv_bytes_middle pre l post :
  sv_bytes (pre ++ l ++ post) (mk_sv (length pre) (length l)) = Some l.
Proof.
  unfold sv_bytes. simpl.
  replace (length pre + length l <=? length (pre ++ l ++ post)) with true
    by (symmetry; apply Nat.leb_le; rewrite !length_app; lia).
  rewrite skipn_app, Nat.sub_diag, skipn_all. simpl.
  rewrite firstn_app, Nat.sub_diag, firstn_all. simpl. now rewrite app_nil_r.
Qed.

Lemma views_bytes bs ls :
  lines_of bs ls ->
  forall pre post,
    map (sv_bytes (pre ++ bs ++ post)) (views_from (length pre) ls) = map Some ls.
Proof.
  induction 1 as [|l Hl Hne|l bs ls Hl H IH]; intros pre post; simpl.
  - reflexivity.
  - now rewrite sv_bytes_middle.
  - rewrite <- (app_assoc l), sv_bytes_middle. f_equal.
    replace (pre ++ l ++ (char_nl :: bs) ++ post)
      with ((pre ++ l ++ [char_nl]) ++ bs ++ post)
      by (rewrite <- !app_assoc; reflexivity).
    replace (length pre + length l + 1) with (length (pre ++ l ++ [char_nl]))
      by (rewrite !length_app; simpl; lia).
    apply IH.
Qed.

(** A range of the buffer, cut out. *)
Lemma range_split (data : list byte) start_pos end_ :
  start_pos <= end_ <= length data ->
  data = firstn start_pos data ++
         firstn (end_ - start_pos) (skipn start_pos data) ++ skipn end_ data /\
  length (firstn start_pos data) = start_pos /\
  length (firstn (end_ - start_pos) (skipn start_pos data)) = end_ - start_pos.
Proof.
  intros H. repeat split.
  - rewrite <- (firstn_skipn start_pos data) at 1. f_equal.
    rewrite <- (firstn_skipn (end_ - start_pos) (skipn start_pos data)) at 1. f_equal.
    rewrite skipn_skipn. f_equal. lia.
  - rewrite length_firstn. lia.
  - rewrite length_firstn, length_skipn. lia.
Qed.

Lemma split_lines_length bs : length (split_lines bs) <= length bs.
Proof.
  induction bs as [|b bs IH]; simpl; [lia|].
  destruct (Byte.eqb b char_nl); simpl; [lia|].
  destruct (split_lines bs); simpl in *; lia.
Qed.

Lemma views_from_length start ls : length (views_from start ls) = length ls.
Proof. revert start. induction ls; intros; simpl; auto. Qed.

(** Within the buffer, [process_chunk] is the handler folded over the views
    of the lines of the range. *)
Lemma process_chunk_with_fold {State : Type}
    (handler : string_view -> State -> option State)
    (data : list byte) (start_pos end_ : nat) (s : State) :
  start_pos <= end_ <= length data ->
  process_chunk_with handler data start_pos end_ s =
  fold_handler handler
    (views_from start_pos
       (split_lines (firstn (end_ - start_pos) (skipn start_pos data)))) s.
Proof.
  intros H.
  destruct (range_split data start_pos end_ H) as (Hdata & Hpre & Hlen).
  set (range := firstn (end_ - start_pos) (skipn start_pos data)) in *.
  set (pre := firstn start_pos data) in *. set (post := skipn end_ data) in *.
  clearbody range pre post.
  assert (He : end_ = length pre + length range) by lia.
  clear H Hlen. subst data start_pos end_.
  unfold process_chunk_with.
  replace (length pre + length range - length pre) with (length range) by lia.
  apply chunk_loop_lines; [apply split_lines_spec | lia].
Qed.

End ChunkFacts.

(** * Facts about tables and statistics *)

Module TableFacts.
Section WithMap.

Context {M : UnorderedMap}.

Lemma um_find_modify_same k f m :
  um_find k (um_modify k f m) = Some (f (um_at k m)).
Proof.
  rewrite um_find_modify. destruct (key_eq_dec k k); [reflexivity|congruence].
Qed.

Lemma um_find_modify_other k k' f m :
  k <> k' -> um_find k' (um_modify k f m) = um_find k' m.
Proof.
  intros H. rewrite um_find_modify. destruct (key_eq_dec k k'); [congruence|reflexivity].
Qed.

Lemma um_at_modify_same k f m : um_at k (um_modify k f m) = f (um_at k m).
Proof. unfold um_at at 1. now rewrite um_find_modify_same. Qed.

Lemma um_at_modify_other k k' f m :
  k <> k' -> um_at k' (um_modify k f m) = um_at k' m.
Proof. intros H. unfold um_at. now rewrite um_find_modify_other. Qed.

(** *** One sequential pass, seen from one key *)

Lemma find_aggregate k rs : forall t,
  um_find k (aggregate rs t) =
  match values_of k rs with
  | [] => um_find k t
  | vs => Some (update_all vs (um_at k t))
  end.
Proof.
  unfold aggregate, values_of.
  induction rs as [|[k0 v0] rs IH]; intros t; simpl; [reflexivity|].
  rewrite IH. unfold add_record. simpl fst. simpl snd.
  destruct (key_eq_dec k0 k) as [->|Hk]; simpl.
  - rewrite um_at_modify_same, um_find_modify_same.
    destruct (map snd _); reflexivity.
  - rewrite um_find_modify_other, um_at_modify_other; auto.
Qed.

(** *** One merge, seen from one key *)

Fixpoint find_entry (k : key) (items : list (key * locationData))
  : option locationData :=
  match items with
  | [] => None
  | (k', v) :: items' => if key_eq_dec k' k then Some v else find_entry k items'
  end.

Lemma find_entry_not_in k items :
  ~ In k (map fst items) -> find_entry k items = None.
Proof.
  induction items as [|[k0 v0] items IH]; simpl; [reflexivity|].
  intros H. destruct (key_eq_dec k0 k); [tauto|]. apply IH. tauto.
Qed.

Lemma find_entry_in k v items :
  NoDup (map fst items) -> In (k, v) items -> find_entry k items = Some v.
Proof.
  induction items as [|[k0 v0] items IH]; simpl; [tauto|].
  intros Hnd [H|H]; inversion Hnd; subst.
  - inversion H; subst. destruct (key_eq_dec k k); [reflexivity|congruence].
  - destruct (key_eq_dec k0 k) as [->|]; [|auto].
    exfalso. apply H2. change k with (fst (k, v)). now apply in_map.
Qed.

Lemma find_entry_items k m : find_entry k (um_items m) = um_find k m.
Proof.
  destruct (um_find k m) as [v|] eqn:E.
  - apply find_entry_in; [apply um_items_nodup | now apply um_items_find].
  - apply find_entry_not_in. intros H. apply in_map_iff in H.
    destruct H as [[k' v] [Hk H]]. simpl in Hk. subst k'.
    apply um_items_find in H. congruence.
Qed.

Lemma find_fold_merge k items : forall g,
  NoDup (map fst items) ->
  um_find k (fold_left (fun acc kv => um_modify (fst kv) (merge_stats (snd kv)) acc)
                       items g) =
  match find_entry k items with
  | Some v => Some (merge_stats v (um_at k g))
  | None => um_find k g
  end.
Proof.
  induction items as [|[k0 v0] items IH]; intros g Hnd; simpl; [reflexivity|].
  inversion Hnd; subst. rewrite IH by assumption. simpl.
  destruct (key_eq_dec k0 k) as [->|Hk].
  - rewrite find_entry_not_in by assumption. apply um_find_modify_same.
  - rewrite um_find_modify_other, um_at_modify_other; auto.
Qed.

Lemma find_merge_local k l g :
  um_find k (merge_local l g) =
  match um_find k l with
  | Some v => Some (merge_stats v (um_at k g))
  | None => um_find k g
  end.
Proof.
  unfold merge_local. rewrite find_fold_merge by apply um_items_nodup.
  now rewrite find_entry_items.
Qed.

Lemma find_merge_tables k ts : forall g,
  um_find k (merge_tables ts g) =
  match entries_of k ts with
  | [] => um_find k g
  | ls => Some (merge_all ls (um_at k g))
  end.
Proof.
  unfold merge_tables, entries_of, merge_all.
  induction ts as [|t ts IH]; intros g; simpl; [reflexivity|].
  rewrite IH. unfold um_at at 1. rewrite find_merge_local.
  destruct (um_find k t) as [v|]; simpl.
  - destruct (flat_map _ ts); reflexivity.
  - reflexivity.
Qed.

End WithMap.
End TableFacts.

Module StatsFacts.
Import F32Order.

Section Running.

(** [better x m] is the test that replaces the running value [m] by [x];
    [R m x] says that [m] is at least as extreme as [x]. *)
Variable better : float -> float -> bool.
Variable R : float -> float -> Prop.
Hypothesis better_true :
  forall x m, better x m = true -> F32.is_nan x = false /\ R x m.
Hypothesis better_false :
  forall x m, F32.is_nan x = false -> F32.is_nan m = false ->
              better x m = false -> R m x.
Hypothesis R_refl : forall x, F32.is_nan x = false -> R x x.
Hypothesis R_trans : forall x y z, R x y -> R y z -> R x z.
Hypothesis R_antisym : forall x y, R x y -> R y x -> eqv x y.

Definition running (m0 : float) (xs : list float) : float :=
  fold_left (fun m x => if better x m then x else m) xs m0.

Lemma running_spec xs : forall m0,
  F32.is_nan m0 = false ->
  F32.is_nan (running m0 xs) = false /\
  (running m0 xs = m0 \/ In (running m0 xs) xs) /\
  R (running m0 xs) m0 /\
  (forall x, In x xs -> F32.is_nan x = false -> R (running m0 xs) x).
Proof.
  unfold running. induction xs as [|x xs IH]; intros m0 Hm0; simpl.
  - repeat split; auto. intros x [].
  - destruct (better x m0) eqn:E.
    + destruct (better_true _ _ E) as [Hx Hxm].
      destruct (IH x Hx) as (Hn & Hin & Hr & Hall).
      repeat split; auto.
      * destruct Hin as [->|Hin]; auto.
      * eapply R_trans; eauto.
      * intros y [<-|Hy] Hy'; auto.
    + destruct (IH m0 Hm0) as (Hn & Hin & Hr & Hall).
      repeat split; auto.
      * destruct Hin as [Hin|Hin]; auto.
      * intros y [<-|Hy] Hy'; auto.
        eapply R_trans; [exact Hr|]. now apply better_false.
Qed.

(** Two lists, each of whose values is matched or beaten by a value of the
    other (or by the start value), have the same running extremum. *)
Lemma running_eqv m0 xs ys :
  F32.is_nan m0 = false ->
  (forall x, In x xs -> F32.is_nan x = false ->
             exists y, (y = m0 \/ (In y ys /\ F32.is_nan y = false)) /\ R y x) ->
  (forall y, In y ys -> F32.is_nan y = false ->
             exists x, (x = m0 \/ (In x xs /\ F32.is_nan x = false)) /\ R x y) ->
  eqv (running m0 xs) (running m0 ys).
Proof.
  intros Hm0 Hxy Hyx.
  destruct (running_spec xs m0 Hm0) as (Hn1 & Hin1 & Hr1 & Hall1).
  destruct (running_spec ys m0 Hm0) as (Hn2 & Hin2 & Hr2 & Hall2).
  assert (H12 : R (running m0 ys) (running m0 xs)).
  { destruct Hin1 as [->|Hin1]; auto.
    destruct (Hxy _ Hin1 Hn1) as [y [[->|[Hy Hy']] Hr]]; eauto. }
  assert (H21 : R (running m0 xs) (running m0 ys)).
  { destruct Hin2 as [->|Hin2]; auto.
    destruct (Hyx _ Hin2 Hn2) as [x [[->|[Hx Hx']] Hr]]; eauto. }
  now apply R_antisym.
Qed.

Lemma running_perm m0 xs ys :
  F32.is_nan m0 = false -> Permutation xs ys ->
  eqv (running m0 xs) (running m0 ys).
Proof.
  intros Hm0 Hp. apply running_eqv; auto.
  - intros x Hx Hn. exists x. split; auto. right. split; auto.
    eapply Permutation_in; eauto.
  - intros y Hy Hn. exists y. split; auto. right. split; auto.
    eapply Permutation_in; [apply Permutation_sym|]; eauto.
Qed.

(** The running extremum of the groups' running extrema is that of all the
    values. *)
Lemma running_groups m0 (groups : list (list float)) :
  F32.is_nan m0 = false ->
  eqv (running m0 (map (running m0) groups)) (running m0 (concat groups)).
Proof.
  intros Hm0. apply running_eqv; auto.
  - intros x Hx Hn. apply in_map_iff in Hx. destruct Hx as [g [<- Hg]].
    destruct (running_spec g m0 Hm0) as (_ & [Hin|Hin] & _ & _).
    + exists m0. split; auto. rewrite Hin. now apply R_refl.
    + exists (running m0 g). split; auto. right. split; auto.
      apply in_concat. eauto.
  - intros y Hy Hn. apply in_concat in Hy. destruct Hy as [g [Hg Hy]].
    destruct (running_spec g m0 Hm0) as (Hn' & _ & _ & Hall).
    exists (running m0 g). split; auto. right. split; auto.
    apply in_map_iff. eauto.
Qed.

End Running.

(** The two instances. *)

Lemma max_better_true x m : F32.ltb m x = true -> F32.is_nan x = false /\ le m x.
Proof. intros H. split; [apply (lt_not_nan _ _ H) | now apply lt_le]. Qed.

Lemma max_better_false x m :
  F32.is_nan x = false -> F32.is_nan m = false -> F32.ltb m x = false -> le x m.
Proof. intros Hx Hm H. now apply not_lt_le. Qed.

Lemma min_better_true x m : F32.ltb x m = true -> F32.is_nan x = false /\ le x m.
Proof. intros H. split; [apply (lt_not_nan _ _ H) | now apply lt_le]. Qed.

Lemma min_better_false x m :
  F32.is_nan x = false -> F32.is_nan m = false -> F32.ltb x m = false -> le m x.
Proof. intros Hx Hm H. now apply not_lt_le. Qed.

Lemma ge_trans x y z : le y x -> le z y -> le z x.
Proof. intros H1 H2. eapply le_trans; eauto. Qed.

Lemma ge_antisym x y : le y x -> le x y -> eqv x y.
Proof. intros H1 H2. now apply le_antisym. Qed.

Lemma running_max_spec xs m0 :
  F32.is_nan m0 = false ->
  F32.is_nan (running_max m0 xs) = false /\
  (running_max m0 xs = m0 \/ In (running_max m0 xs) xs) /\
  le m0 (running_max m0 xs) /\
  (forall x, In x xs -> F32.is_nan x = false -> le x (running_max m0 xs)).
Proof.
  exact (running_spec (fun x m => F32.ltb m x) (fun m x => le x m)
           max_better_true max_better_false le_refl ge_trans xs m0).
Qed.

Lemma running_min_spec xs m0 :
  F32.is_nan m0 = false ->
  F32.is_nan (running_min m0 xs) = false /\
  (running_min m0 xs = m0 \/ In (running_min m0 xs) xs) /\
  le (running_min m0 xs) m0 /\
  (forall x, In x xs -> F32.is_nan x = false -> le (running_min m0 xs) x).
Proof.
  exact (running_spec (fun x m => F32.ltb x m) le
           min_better_true min_better_false le_refl le_trans xs m0).
Qed.

Lemma running_max_perm m0 xs ys :
  F32.is_nan m0 = false -> Permutation xs ys ->
  eqv (running_max m0 xs) (running_max m0 ys).
Proof.
  exact (running_perm (fun x m => F32.ltb m x) (fun m x => le x m)
           max_better_true max_better_false le_refl ge_trans ge_antisym m0 xs ys).
Qed.

Lemma running_min_perm m0 xs ys :
  F32.is_nan m0 = false -> Permutation xs ys ->
  eqv (running_min m0 xs) (running_min m0 ys).
Proof.
  exact (running_perm (fun x m => F32.ltb x m) le
           min_better_true min_better_false le_refl le_trans le_antisym m0 xs ys).
Qed.

Lemma running_max_groups m0 groups :
  F32.is_nan m0 = false ->
  eqv (running_max m0 (map (running_max m0) groups)) (running_max m0 (concat groups)).
Proof.
  exact (running_groups (fun x m => F32.ltb m x) (fun m x => le x m)
           max_better_true max_better_false le_refl ge_trans ge_antisym m0 groups).
Qed.

Lemma running_min_groups m0 groups :
  F32.is_nan m0 = false ->
  eqv (running_min m0 (map (running_min m0) groups)) (running_min m0 (concat groups)).
Proof.
  exact (running_groups (fun x m => F32.ltb x m) le
           min_better_true min_better_false le_refl le_trans le_antisym m0 groups).
Qed.

Lemma eqv_trans x y z : eqv x y -> eqv y z -> eqv x z.
Proof.
  rewrite !eqv_rank. intros (? & ? & ?) (? & ? & ?). repeat split; auto. congruence.
Qed.

Lemma eqv_sym x y : eqv x y -> eqv y x.
Proof. rewrite !eqv_rank. intros (? & ? & ?). repeat split; auto. Qed.

(** *** The fields after a run of updates or merges *)

Lemma update_all_fields vs : forall s,
  wrap64 (count (update_all vs s)) = wrap64 (count s + Z.of_nat (length vs)) /\
  total (update_all vs s) = running_sum (total s) vs /\
  temp_min (update_all vs s) = running_min (temp_min s) vs /\
  temp_max (update_all vs s) = running_max (temp_max s) vs.
Proof.
  unfold update_all, running_sum, running_min, running_max, wrap64.
  induction vs as [|v vs IH]; intros s.
  - simpl. rewrite Z.add_0_r. auto.
  - cbn [fold_left length]. destruct (IH (update_stats v s)) as (Hc & Ht & Hmin & Hmax).
    rewrite Hc, Ht, Hmin, Hmax. cbn [update_stats count total temp_min temp_max].
    repeat split; auto.
    unfold wrap64. rewrite Zplus_mod_idemp_l. f_equal. lia.
Qed.

Lemma merge_all_fields ls : forall s,
  wrap64 (count (merge_all ls s)) = wrap64 (count s + sum_Z (map count ls)) /\
  total (merge_all ls s) = running_sum (total s) (map total ls) /\
  temp_min (merge_all ls s) = running_min (temp_min s) (map temp_min ls) /\
  temp_max (merge_all ls s) = running_max (temp_max s) (map temp_max ls).
Proof.
  unfold merge_all, running_sum, running_min, running_max, wrap64.
  induction ls as [|l ls IH]; intros s.
  - simpl. rewrite Z.add_0_r. auto.
  - cbn [fold_left map sum_Z fold_right].
    destruct (IH (merge_stats l s)) as (Hc & Ht & Hmin & Hmax).
    rewrite Hc, Ht, Hmin, Hmax. cbn [merge_stats count total temp_min temp_max].
    repeat split; auto.
    unfold wrap64. rewrite Zplus_mod_idemp_l. f_equal. unfold sum_Z. lia.
Qed.

(** After at least one update or merge the count is a [uint64_t] value. *)
Lemma wrap64_idem z : wrap64 (wrap64 z) = wrap64 z.
Proof. unfold wrap64. apply Z.mod_mod. lia. Qed.

Lemma update_all_count v vs s :
  count (update_all (v :: vs) s) = wrap64 (count s + Z.of_nat (length (v :: vs))).
Proof.
  destruct (update_all_fields (v :: vs) s) as [H _]. rewrite <- H.
  clear H. revert v s. unfold update_all.
  induction vs as [|v' vs IH]; intros v s.
  - simpl. now rewrite wrap64_idem.
  - cbn [fold_left] in *. apply IH.
Qed.

Lemma merge_all_count l ls s :
  count (merge_all (l :: ls) s) = wrap64 (count s + sum_Z (map count (l :: ls))).
Proof.
  destruct (merge_all_fields (l :: ls) s) as [H _]. rewrite <- H.
  clear H. revert l s. unfold merge_all.
  induction ls as [|l' ls IH]; intros l s.
  - simpl. now rewrite wrap64_idem.
  - cbn [fold_left] in *. apply IH.
Qed.

End StatsFacts.

Module MergeFacts.
Import F32Order StatsFacts TableFacts.

Lemma init_min_not_nan : F32.is_nan (temp_min locationData_init) = false.
Proof. reflexivity. Qed.

Lemma init_max_not_nan : F32.is_nan (temp_max locationData_init) = false.
Proof. reflexivity. Qed.

Lemma values_of_flat_map k rs :
  values_of k rs =
  flat_map (fun r => if key_eq_dec (fst r) k then [snd r] else []) rs.
Proof.
  unfold values_of. induction rs as [|r rs IH]; simpl; [reflexivity|].
  destruct (key_eq_dec (fst r) k); simpl; now rewrite IH.
Qed.

Lemma values_of_perm k rs rs' :
  Permutation rs rs' -> Permutation (values_of k rs) (values_of k rs').
Proof. intros H. rewrite !values_of_flat_map. now apply Permutation_flat_map. Qed.

Lemma values_of_concat k groups :
  values_of k (concat groups) = concat (map (values_of k) groups).
Proof.
  induction groups as [|g groups IH]; simpl; [reflexivity|].
  rewrite <- IH. unfold values_of. now rewrite filter_app, map_app.
Qed.

Lemma concat_nonempty {A} (ls : list (list A)) :
  concat (filter (fun vs => match vs with [] => false | _ => true end) ls) = concat ls.
Proof.
  induction ls as [|[|x l] ls IH]; simpl; auto. now rewrite IH.
Qed.

Lemma station_groups_concat k groups :
  concat (station_groups k groups) = values_of k (concat groups).
Proof. unfold station_groups. now rewrite concat_nonempty, values_of_concat. Qed.

Lemma station_groups_nonempty k groups :
  Forall (fun vs => vs <> []) (station_groups k groups).
Proof.
  unfold station_groups. apply Forall_forall. intros vs H.
  apply filter_In in H. destruct H as [_ H]. destruct vs; [discriminate|congruence].
Qed.

Section WithMap.

Context {M : UnorderedMap}.

(** What the private tables of the groups hold for station [k]. *)
Lemma entries_of_groups k groups :
  entries_of k (map (fun g => aggregate g um_empty) groups) =
  map (fun vs => update_all vs locationData_init) (station_groups k groups).
Proof.
  unfold entries_of, station_groups.
  induction groups as [|g groups IH]; simpl; [reflexivity|].
  rewrite IH, find_aggregate, um_find_empty. unfold um_at. rewrite um_find_empty.
  destruct (values_of k g); reflexivity.
Qed.

End WithMap.

Lemma count_groups (gs : list (list float)) :
  Forall (fun vs => vs <> []) gs ->
  wrap64 (sum_Z (map count (map (fun vs => update_all vs locationData_init) gs))) =
  wrap64 (Z.of_nat (length (concat gs))).
Proof.
  induction 1 as [|g gs Hg _ IH]; [reflexivity|].
  destruct g as [|v g]; [congruence|].
  cbn [map sum_Z fold_right concat]. fold (sum_Z (map count
    (map (fun vs => update_all vs locationData_init) gs))).
  rewrite update_all_count, length_app, Nat2Z.inj_add.
  unfold wrap64 in *. rewrite Zplus_mod, IH, <- Zplus_mod.
  rewrite Zplus_mod_idemp_l. reflexivity.
Qed.

Lemma map_fields_groups (gs : list (list float)) :
  map temp_max (map (fun vs => update_all vs locationData_init) gs) =
  map (running_max (temp_max locationData_init)) gs /\
  map temp_min (map (fun vs => update_all vs locationData_init) gs) =
  map (running_min (temp_min locationData_init)) gs /\
  map total (map (fun vs => update_all vs locationData_init) gs) =
  map (running_sum (total locationData_init)) gs.
Proof.
  rewrite !map_map. repeat split; apply map_ext; intros vs;
    destruct (update_all_fields vs locationData_init) as (_ & Ht & Hmin & Hmax);
    assumption.
Qed.

Lemma sum_Z_perm xs ys : Permutation xs ys -> sum_Z xs = sum_Z ys.
Proof. unfold sum_Z. induction 1; simpl; lia. Qed.

End MergeFacts.

(** * Facts about the threads *)

Module ThreadFacts.
Section WithMap.

Context {M : UnorderedMap}.

Definition merge_step (data : list byte) (num_threads : Z)
    (acc : option umap) (i : Z) : option umap :=
  match acc, worker data num_threads i with
  | Some loc_data, Some local_loc_data => Some (merge_local local_loc_data loc_data)
  | _, _ => None
  end.

Lemma merge_step_none data n schedule :
  fold_left (merge_step data n) schedule None = None.
Proof. induction schedule; simpl; auto. Qed.

Lemma fold_merge_step data n schedule : forall acc g,
  fold_left (merge_step data n) schedule (Some acc) = Some g ->
  exists ts, map (worker data n) schedule = map Some ts /\ g = merge_tables ts acc.
Proof.
  induction schedule as [|i schedule IH]; intros acc g H; cbn [fold_left] in H.
  - exists []. split; [reflexivity|]. simpl. congruence.
  - assert (Hstep : merge_step data n (Some acc) i =
                    match worker data n i with
                    | Some l => Some (merge_local l acc)
                    | None => None
                    end) by reflexivity.
    rewrite Hstep in H. clear Hstep.
    destruct (worker data n i) as [l|] eqn:E.
    + destruct (IH _ _ H) as [ts [Hts Hg]].
      exists (l :: ts). simpl. rewrite E, Hts. auto.
    + rewrite merge_step_none in H. discriminate.
Qed.

(** A run that returns merged the private tables of the threads, in the
    order of the schedule. *)
Lemma run_threads_tables data n schedule g :
  run_threads data n schedule = Some g ->
  n <> 0%Z /\
  exists ts, map (worker data n) schedule = map Some ts /\
             g = merge_tables ts um_empty.
Proof.
  unfold run_threads. destruct (n =? 0)%Z eqn:E; [discriminate|].
  intros H. split; [now apply Z.eqb_neq|]. now apply fold_merge_step.
Qed.

Lemma map_Some_inj {A} (l l' : list A) : map Some l = map Some l' -> l = l'.
Proof.
  revert l'. induction l as [|x l IH]; intros [|y l']; simpl; try discriminate; auto.
  intros H. inversion H; subst. f_equal. auto.
Qed.

Lemma map_Some_perm {A} (l l' : list A) :
  Permutation (map Some l) (map Some l') -> Permutation l l'.
Proof.
  intros H. apply Permutation_sym, Permutation_map_inv in H.
  destruct H as [l3 [H3 Hp]]. apply map_Some_inj in H3. subst l3.
  now apply Permutation_sym.
Qed.

(** Merging in another order: same count, and minimum and maximum equal as
    numbers, for every key. *)
Lemma merge_tables_perm ts ts' k :
  Permutation ts ts' ->
  stats_agree (um_find k (merge_tables ts um_empty))
              (um_find k (merge_tables ts' um_empty)).
Proof.
  intros Hperm. rewrite !TableFacts.find_merge_tables, !um_find_empty.
  unfold um_at. rewrite um_find_empty.
  assert (Hp : Permutation (entries_of k ts) (entries_of k ts'))
    by (now apply Permutation_flat_map).
  destruct (entries_of k ts) as [|l ls].
  - apply Permutation_nil in Hp. rewrite Hp. exact I.
  - destruct (entries_of k ts') as [|l' ls'].
    { apply Permutation_sym, Permutation_nil in Hp. discriminate. }
    destruct (StatsFacts.merge_all_fields (l :: ls) locationData_init)
      as (_ & _ & Hmin & Hmax).
    destruct (StatsFacts.merge_all_fields (l' :: ls') locationData_init)
      as (_ & _ & Hmin' & Hmax').
    unfold stats_agree. split; [|split].
    + rewrite !StatsFacts.merge_all_count. f_equal. f_equal.
      apply MergeFacts.sum_Z_perm. now apply Permutation_map.
    + rewrite Hmin, Hmin'.
      apply StatsFacts.running_min_perm; [reflexivity|now apply Permutation_map].
    + rewrite Hmax, Hmax'.
      apply StatsFacts.running_max_perm; [reflexivity|now apply Permutation_map].
Qed.

Lemma merge_tables_total ts k s :
  um_find k (merge_tables ts um_empty) = Some s ->
  total s = running_sum (F32.of_Z 0) (map total (entries_of k ts)).
Proof.
  rewrite TableFacts.find_merge_tables, um_find_empty.
  unfold um_at. rewrite um_find_empty.
  destruct (entries_of k ts) as [|l ls]; [discriminate|].
  intros Hs.
  assert (Es : s = merge_all (l :: ls) locationData_init) by congruence.
  rewrite Es. apply StatsFacts.merge_all_fields.
Qed.

End WithMap.
End ThreadFacts.

Module PlanFacts.

Local Open Scope Z_scope.

Lemma wrap64_small z : 0 <= z < 2 ^ 64 -> wrap64 z = z.
Proof. intros H. unfold wrap64. now apply Z.mod_small. Qed.

Lemma in_thread_ids n i : In i (thread_ids n) <-> 0 <= i < n.
Proof.
  unfold thread_ids. rewrite in_map_iff. split.
  - intros [m [<- Hm]]. apply in_seq in Hm. lia.
  - intros H. exists (Z.to_nat i). split; [lia|]. apply in_seq. lia.
Qed.

Section Plan.

Variables size n : Z.
Hypothesis size_range : 0 <= size < 2 ^ 64.
Hypothesis n_range : 1 <= n < 2 ^ 64.

Lemma chunk_mul_le i : 0 <= i <= n -> 0 <= i * (size / n) <= size.
Proof.
  intros Hi. assert (0 <= size / n) by (apply Z.div_pos; lia).
  split; [nia|]. transitivity (n * (size / n)); [nia|].
  apply Z.mul_div_le. lia.
Qed.

(** No product of the plan wraps. *)
Lemma chunk_range_plain i :
  0 <= i < n ->
  chunk_range size n i =
  (i * (size / n), if i =? n - 1 then size else (i + 1) * (size / n)).
Proof.
  intros Hi. unfold chunk_range.
  pose proof (chunk_mul_le i ltac:(lia)). pose proof (chunk_mul_le (i + 1) ltac:(lia)).
  rewrite !wrap64_small by lia. reflexivity.
Qed.

Lemma chunk_range_bounds i :
  0 <= i < n ->
  0 <= fst (chunk_range size n i) <= snd (chunk_range size n i) /\
  snd (chunk_range size n i) <= size.
Proof.
  intros Hi. rewrite chunk_range_plain by assumption. simpl.
  pose proof (chunk_mul_le i ltac:(lia)). pose proof (chunk_mul_le (i + 1) ltac:(lia)).
  assert (0 <= size / n) by (apply Z.div_pos; lia).
  destruct (i =? n - 1); nia.
Qed.

(** The ranges follow one another from 0 to [size]. *)
Lemma chunk_range_contiguous :
  fst (chunk_range size n 0) = 0 /\
  snd (chunk_range size n (n - 1)) = size /\
  (forall i, 0 <= i < n - 1 ->
     snd (chunk_range size n i) = fst (chunk_range size n (i + 1))).
Proof.
  split; [|split].
  - rewrite chunk_range_plain by lia. reflexivity.
  - rewrite chunk_range_plain by lia. simpl. now rewrite Z.eqb_refl.
  - intros i Hi. rewrite !chunk_range_plain by lia. simpl.
    replace (i =? n - 1) with false by (symmetry; apply Z.eqb_neq; lia).
    reflexivity.
Qed.

Lemma sum_Z_app xs ys : sum_Z (xs ++ ys) = sum_Z xs + sum_Z ys.
Proof. unfold sum_Z. induction xs; simpl; lia. Qed.

Lemma chunk_length_interior (m : nat) :
  Z.of_nat m <= n - 1 ->
  sum_Z (map (chunk_length size n) (map Z.of_nat (seq 0 m))) =
  Z.of_nat m * (size / n).
Proof.
  induction m as [|m IH]; intros Hm; [reflexivity|].
  rewrite seq_S, !map_app, sum_Z_app, IH by lia.
  cbn [map Nat.add sum_Z fold_right].
  unfold chunk_length. rewrite chunk_range_plain by lia. cbn [fst snd].
  replace (Z.of_nat m =? n - 1) with false by (symmetry; apply Z.eqb_neq; lia).
  rewrite Nat2Z.inj_succ. ring.
Qed.

(** The lengths of the ranges add up to [size]. *)
Lemma chunk_length_total : sum_Z (map (chunk_length size n) (thread_ids n)) = size.
Proof.
  unfold thread_ids. destruct (Z.to_nat n) as [|m] eqn:E; [lia|].
  rewrite seq_S, !map_app, sum_Z_app, chunk_length_interior by lia.
  cbn [map Nat.add sum_Z fold_right].
  unfold chunk_length. rewrite chunk_range_plain by lia. cbn [fst snd].
  replace (Z.of_nat m =? n - 1) with true by (symmetry; apply Z.eqb_eq; lia).
  ring.
Qed.

End Plan.
End PlanFacts.

Module CountFacts.
Import LineSpec.

Local Open Scope Z_scope.

Section WithMap.

Context {M : UnorderedMap}.

Lemma counts_within_empty : counts_within 0 um_empty.
Proof. intros k v H. rewrite um_find_empty in H. discriminate. Qed.

Lemma counts_within_le n n' t : n <= n' -> counts_within n t -> counts_within n' t.
Proof. intros Hn H k v Hk. specialize (H k v Hk). lia. Qed.

Lemma um_at_count n t k : 0 <= n -> counts_within n t -> 0 <= count (um_at k t) <= n.
Proof.
  intros Hn H. unfold um_at. destruct (um_find k t) as [v|] eqn:E.
  - specialize (H k v E). lia.
  - simpl. lia.
Qed.

Lemma process_line_counts data line n t t' :
  0 <= n -> n + 1 < 2 ^ 64 -> counts_within n t ->
  process_line data line t = Some t' -> counts_within (n + 1) t'.
Proof.
  intros Hn Hlt Ht. unfold process_line.
  destruct (sv_bytes data line) as [bs|]; [|discriminate].
  destruct (find_byte char_semi bs) as [pos|].
  - destruct (parse_float _ _) as [v|]; [|discriminate].
    intros [= <-] k s Hk. rewrite um_find_modify in Hk.
    destruct (key_eq_dec _ k) as [->|Hne].
    + injection Hk as <-. cbn [update_stats count].
      pose proof (um_at_count n t k Hn Ht) as Hc. fold (um_at k t).
      rewrite PlanFacts.wrap64_small; lia.
    + specialize (Ht k s Hk). lia.
  - intros [= <-]. eapply counts_within_le; [|exact Ht]. lia.
Qed.

Lemma fold_handler_counts data vs : forall n t t',
  0 <= n -> n + Z.of_nat (length vs) < 2 ^ 64 -> counts_within n t ->
  fold_handler (process_line data) vs t = Some t' ->
  counts_within (n + Z.of_nat (length vs)) t'.
Proof.
  induction vs as [|v vs IH]; intros n t t' Hn Hlt Ht H.
  - simpl in *. injection H as <-. now rewrite Z.add_0_r.
  - cbn [fold_handler] in H. cbn [length] in *.
    destruct (process_line data v t) as [t1|] eqn:E; [|discriminate].
    replace (n + Z.of_nat (S (length vs))) with (n + 1 + Z.of_nat (length vs)) by lia.
    apply (IH (n + 1) t1); try lia; auto.
    eapply process_line_counts; eauto. lia.
Qed.

(** A thread counts at most one record per byte of its range. *)
Lemma process_chunk_counts data start_pos end_ t :
  (start_pos <= end_ <= length data)%nat ->
  Z.of_nat (length data) < 2 ^ 64 ->
  process_chunk data start_pos end_ um_empty = Some t ->
  counts_within (Z.of_nat (end_ - start_pos)) t.
Proof.
  intros Hr Hlen H. unfold process_chunk in H.
  rewrite (ChunkFacts.process_chunk_with_fold (process_line data) data
             start_pos end_ um_empty Hr) in H.
  set (ls := split_lines (firstn (end_ - start_pos) (skipn start_pos data))) in *.
  assert (Hls : (length (views_from start_pos ls) <= end_ - start_pos)%nat).
  { rewrite ChunkFacts.views_from_length. subst ls.
    etransitivity; [apply ChunkFacts.split_lines_length|].
    rewrite length_firstn. lia. }
  apply (fold_handler_counts data _ 0) in H; try lia.
  - eapply counts_within_le; [|exact H]. lia.
  - apply counts_within_empty.
Qed.

Lemma merge_local_counts l g n B :
  0 <= n -> 0 <= B -> B + n < 2 ^ 64 ->
  counts_within n l -> counts_within B g ->
  counts_within (B + n) (merge_local l g).
Proof.
  intros Hn HB Hlt Hl Hg k s Hk. rewrite TableFacts.find_merge_local in Hk.
  destruct (um_find k l) as [v|] eqn:E.
  - injection Hk as <-. cbn [merge_stats count].
    specialize (Hl k v E). pose proof (um_at_count B g k HB Hg).
    rewrite PlanFacts.wrap64_small; lia.
  - specialize (Hg k s Hk). lia.
Qed.

Lemma sum_Z_nonneg ns : Forall (fun n => 0 <= n) ns -> 0 <= sum_Z ns.
Proof. unfold sum_Z. induction 1; simpl; lia. Qed.

Lemma merge_tables_counts ts ns :
  Forall2 (fun t n => counts_within n t) ts ns ->
  Forall (fun n => 0 <= n) ns ->
  forall g B, 0 <= B -> B + sum_Z ns < 2 ^ 64 -> counts_within B g ->
              counts_within (B + sum_Z ns) (merge_tables ts g).
Proof.
  induction 1 as [|t n ts ns Ht Hts IH]; intros Hns g B HB Hlt Hg.
  - simpl. now rewrite Z.add_0_r.
  - inversion Hns as [|? ? Hn Hns']; subst.
    pose proof (sum_Z_nonneg ns Hns') as Hsum.
    cbn [sum_Z fold_right] in *. fold (sum_Z ns) in *.
    unfold merge_tables. cbn [fold_left]. fold (merge_tables ts (merge_local t g)).
    replace (B + (n + sum_Z ns)) with (B + n + sum_Z ns) by lia.
    apply IH; auto; try lia.
    apply merge_local_counts; auto; lia.
Qed.

(** The private tables of the threads of a schedule. *)
Lemma worker_counts data n schedule : forall ts,
  Z.of_nat (length data) < 2 ^ 64 -> 1 <= n < 2 ^ 64 ->
  Forall (fun i => 0 <= i < n) schedule ->
  map (worker data n) schedule = map Some ts ->
  Forall2 (fun t len => counts_within len t) ts
          (map (chunk_length (Z.of_nat (length data)) n) schedule) /\
  Forall (fun len => 0 <= len) (map (chunk_length (Z.of_nat (length data)) n) schedule).
Proof.
  intros ts Hlen Hn. revert ts.
  induction schedule as [|i schedule IH]; intros ts Hs Hts.
  - destruct ts; [|discriminate]. split; constructor.
  - destruct ts as [|t ts]; [discriminate|]. cbn [map] in Hts.
    injection Hts as Hw Hts. inversion Hs as [|? ? Hi Hs']; subst.
    destruct (IH ts Hs' Hts) as [IH1 IH2].
    pose proof (PlanFacts.chunk_range_bounds (Z.of_nat (length data)) n
                  ltac:(lia) Hn i Hi) as [Hb1 Hb2].
    unfold worker in Hw. cbn [map]. unfold chunk_length at 1 3.
    destruct (chunk_range (Z.of_nat (length data)) n i) as [s e]. cbn [fst snd] in *.
    split; constructor; auto; try lia.
    apply process_chunk_counts in Hw; try lia.
    eapply counts_within_le; [|exact Hw]. lia.
Qed.

Lemma run_threads_counts data n schedule g :
  Z.of_nat (length data) < 2 ^ 64 -> 1 <= n < 2 ^ 64 ->
  Permutation schedule (thread_ids n) ->
  run_threads data n schedule = Some g ->
  counts_within (Z.of_nat (length data)) g.
Proof.
  intros Hlen Hn Hperm Hrun.
  apply ThreadFacts.run_threads_tables in Hrun. destruct Hrun as [_ [ts [Hts ->]]].
  assert (Hs : Forall (fun i => 0 <= i < n) schedule).
  { apply Forall_forall. intros i Hi. apply PlanFacts.in_thread_ids.
    eapply Permutation_in; eauto. }
  destruct (worker_counts data n schedule ts Hlen Hn Hs Hts) as [H1 H2].
  assert (Hsum : sum_Z (map (chunk_length (Z.of_nat (length data)) n) schedule)
                 = Z.of_nat (length data)).
  { rewrite (MergeFacts.sum_Z_perm _ _ (Permutation_map _ Hperm)).
    apply PlanFacts.chunk_length_total; lia. }
  pose proof (merge_tables_counts ts _ H1 H2 um_empty 0 ltac:(lia)
                ltac:(rewrite Hsum; lia) counts_within_empty) as H.
  rewrite Hsum in H. exact H.
Qed.

End WithMap.
End CountFacts.

Module ReportFacts.
Section WithMap.

Context {M : UnorderedMap}.

Lemma report_keys loc_data :
  map line_key (report loc_data) = map fst (um_items loc_data).
Proof. unfold report. rewrite map_map. reflexivity. Qed.

Lemma in_items_keys loc_data k :
  In k (map fst (um_items loc_data)) <-> um_find k loc_data <> None.
Proof.
  rewrite in_map_iff. split.
  - intros [[k' v] [<- H]]. apply um_items_find in H. simpl. congruence.
  - intros H. destruct (um_find k loc_data) as [v|] eqn:E; [|congruence].
    exists (k, v). split; [reflexivity|]. now apply um_items_find.
Qed.

Lemma find_aggregate_keys rs k :
  um_find k (aggregate rs um_empty) <> None <-> In k (map fst rs).
Proof.
  rewrite TableFacts.find_aggregate, um_find_empty.
  unfold values_of. induction rs as [|[k0 v0] rs IH]; simpl; [tauto|].
  destruct (key_eq_dec k0 k) as [->|Hne]; simpl.
  - split; [auto|discriminate].
  - rewrite IH. tauto.
Qed.

End WithMap.
End ReportFacts.

Lemma find_byte_none c l : ~ In c l -> find_byte c l = None.
Proof.
  induction l as [|b l IH]; simpl; [reflexivity|].
  intros H. destruct (Byte.eqb b c) eqn:E.
  - apply Byte.byte_dec_bl in E. tauto.
  - rewrite IH; tauto.
Qed.

Lemma reachable_update_all vs s :
  reachable vs s ->
  s = update_all vs locationData_init /\ Forall (fun v => F32.is_nan v = false) vs.
Proof.
  induction 1 as [|vs s str len v H [IH1 IH2] Hv].
  - split; [reflexivity|constructor].
  - split.
    + unfold update_all. rewrite fold_left_app. simpl. now rewrite IH1.
    + apply Forall_app. split; [assumption|]. constructor; [|constructor].
      eapply ParseFloatFacts.parse_float_not_nan; eauto.
Qed.

(** * The claims *)

(** C1, at an input whose middle falls inside a record.  The two ranges are
    contiguous and cover the 20 bytes, but the boundary at 10 follows the
    byte ['5'] of ["B;5.5"], not a newline: thread 0 reads ["B;5"], thread 1
    reads [".5"], and station B ends with sum 5.0.  One thread gives 5.5. *)
Theorem chunk_boundary_inside_record :
  let data := bytes "A;10.0" ++ [char_nl] ++ bytes "B;5.5" ++ [char_nl] ++
              bytes "A;20.0" ++ [char_nl] in
  let sum_B num_threads :=
    match run_threads data num_threads (thread_ids num_threads) with
    | Some loc_data => option_map total (um_find (bytes "B") loc_data)
    | None => None
    end in
  length data = 20 /\
  map (chunk_range 20 2) (thread_ids 2) = [(0, 10); (10, 20)]%Z /\
  nth_error data 9 = Some "5"%byte /\
  sum_B 1%Z = Some (S754_finite false 11534336 (-21)) /\
  sum_B 2%Z = Some (S754_finite false 10485760 (-21)).
Proof. vm_compute. repeat split. Qed.

(** X1.  The chunk plan of [main]: for a file of [size] bytes and
    [num_threads >= 1] threads (both [size_t] values), the ranges start at 0,
    end at [size], each begins where the one before it ends, and none is
    reversed or leaves the file. *)
Theorem chunk_ranges_cover (size num_threads : Z) :
  (0 <= size < 2 ^ 64)%Z ->
  (1 <= num_threads < 2 ^ 64)%Z ->
  fst (chunk_range size num_threads 0) = 0%Z /\
  snd (chunk_range size num_threads (num_threads - 1)) = size /\
  (forall i, (0 <= i < num_threads - 1)%Z ->
     snd (chunk_range size num_threads i) = fst (chunk_range size num_threads (i + 1))) /\
  (forall i, (0 <= i < num_threads)%Z ->
     (0 <= fst (chunk_range size num_threads i)
        <= snd (chunk_range size num_threads i))%Z /\
     (snd (chunk_range size num_threads i) <= size)%Z).
Proof.
  intros Hsize Hn.
  destruct (PlanFacts.chunk_range_contiguous size num_threads Hsize Hn)
    as (H0 & Hlast & Hnext).
  repeat split; auto; intros;
    destruct (PlanFacts.chunk_range_bounds size num_threads Hsize Hn i); auto; lia.
Qed.

Lemma chunk_ranges_cover_witness :
  fst (chunk_range 20 3 0) = 0%Z /\
  snd (chunk_range 20 3 2) = 20%Z /\
  snd (chunk_range 20 3 0) = fst (chunk_range 20 3 1) /\
  snd (chunk_range 20 3 1) = fst (chunk_range 20 3 2).
Proof.
  destruct (chunk_ranges_cover 20 3 ltac:(lia) ltac:(lia)) as (H0 & Hlast & Hnext & _).
  split; [exact H0|]. split; [exact Hlast|].
  split; [exact (Hnext 0%Z ltac:(lia)) | exact (Hnext 1%Z ltac:(lia))].
Defined.

(** C2, as stated, for three records of one station split into two groups:
    the sum of the merged group tables is not the sum of the single pass.
    And for the records 0.0 and -0.0 taken in the other order by the groups:
    the minimum is +0 after the pass and -0 after the merge. *)
Lemma partition_sum_differs :
  let a := bytes "A" in
  let rs := [(a, F32.tenth); (a, F32.tenth); (a, F32.ten)] in
  let groups := [[(a, F32.tenth)]; [(a, F32.tenth); (a, F32.ten)]] in
  let zs := [(a, S754_zero false); (a, S754_zero true)] in
  let zgroups := [[(a, S754_zero true)]; [(a, S754_zero false)]] in
  let merged gs := merge_tables (map (fun g => aggregate g um_empty) gs) um_empty in
  concat groups = rs /\
  option_map total (um_find a (aggregate rs um_empty))
    = Some (S754_finite false 10695475 (-20)) /\
  option_map total (um_find a (merged groups))
    = Some (S754_finite false 10695476 (-20)) /\
  Permutation (concat zgroups) zs /\
  option_map temp_min (um_find a (aggregate zs um_empty)) = Some (S754_zero false) /\
  option_map temp_min (um_find a (merged zgroups)) = Some (S754_zero true).
Proof.
  repeat split; try (vm_compute; reflexivity). apply perm_swap.
Qed.

(** C2, amended.  For every list of records and every partition of it into
    groups, aggregating each group on its own and merging the group tables
    gives, for every key, the same count and, as numbers, the same minimum
    and maximum as one sequential pass.  The sums are float sums taken in
    different orders: the pass adds the values one by one, the merge adds the
    sums of the groups; they agree only up to rounding. *)
Theorem aggregate_partition {M : UnorderedMap}
    (rs : list record) (groups : list (list record)) (k : key) :
  Permutation (concat groups) rs ->
  let pass := um_find k (aggregate rs um_empty) in
  let merged :=
    um_find k (merge_tables (map (fun g => aggregate g um_empty) groups) um_empty) in
  stats_agree pass merged /\
  (forall s, pass = Some s ->
     total s = running_sum (F32.of_Z 0) (values_of k rs)) /\
  (forall s, merged = Some s ->
     total s = running_sum (F32.of_Z 0)
                 (map (running_sum (F32.of_Z 0)) (station_groups k groups))).
Proof.
  intros Hperm pass merged. subst pass merged.
  rewrite TableFacts.find_aggregate, TableFacts.find_merge_tables.
  rewrite MergeFacts.entries_of_groups, !um_find_empty.
  unfold um_at. rewrite um_find_empty.
  assert (Hvs : Permutation (concat (station_groups k groups)) (values_of k rs)).
  { rewrite MergeFacts.station_groups_concat. now apply MergeFacts.values_of_perm. }
  pose proof (MergeFacts.station_groups_nonempty k groups) as Hne.
  destruct (MergeFacts.map_fields_groups (station_groups k groups))
    as (Emax & Emin & Etot).
  pose proof (MergeFacts.count_groups _ Hne) as Ecount.
  destruct (station_groups k groups) as [|g gs] eqn:Eg.
  - simpl in Hvs. apply Permutation_nil in Hvs. rewrite Hvs. simpl.
    repeat split; discriminate.
  - destruct (values_of k rs) as [|v vs] eqn:Ev.
    { apply Permutation_sym, Permutation_nil in Hvs.
      inversion Hne as [|? ? Hg _]; subst. destruct g; [congruence|discriminate]. }
    remember (map (fun vs0 => update_all vs0 locationData_init) (g :: gs))
      as ls eqn:Els in *.
    destruct ls as [|l ls]; [discriminate|]. clear Els.
    destruct (StatsFacts.update_all_fields (v :: vs) locationData_init)
      as (_ & Ht & Hmin & Hmax).
    destruct (StatsFacts.merge_all_fields (l :: ls) locationData_init)
      as (_ & Ht' & Hmin' & Hmax').
    split; [|split].
    + unfold stats_agree. split; [|split].
      * rewrite StatsFacts.update_all_count, StatsFacts.merge_all_count.
        unfold wrap64 in *. cbn [count locationData_init].
        rewrite !Z.add_0_l, Ecount. f_equal. f_equal.
        symmetry. now apply Permutation_length.
      * rewrite Hmin, Hmin', Emin. apply StatsFacts.eqv_sym.
        eapply StatsFacts.eqv_trans.
        -- apply StatsFacts.running_min_groups. reflexivity.
        -- apply StatsFacts.running_min_perm; [reflexivity|assumption].
      * rewrite Hmax, Hmax', Emax. apply StatsFacts.eqv_sym.
        eapply StatsFacts.eqv_trans.
        -- apply StatsFacts.running_max_groups. reflexivity.
        -- apply StatsFacts.running_max_perm; [reflexivity|assumption].
    + intros s Hs.
      assert (Es : s = update_all (v :: vs) locationData_init) by congruence.
      rewrite Es. exact Ht.
    + intros s Hs.
      assert (Es : s = merge_all (l :: ls) locationData_init) by congruence.
      rewrite Es, Ht', Etot. reflexivity.
Qed.

Lemma aggregate_partition_witness :
  let a := bytes "A" in
  stats_agree
    (um_find a (aggregate [(a, F32.tenth); (a, F32.ten)] um_empty))
    (um_find a (merge_tables
                  (map (fun g => aggregate g um_empty) [[(a, F32.tenth)]; [(a, F32.ten)]])
                  um_empty)).
Proof.
  intros a.
  apply (aggregate_partition [(a, F32.tenth); (a, F32.ten)]
           [[(a, F32.tenth)]; [(a, F32.ten)]] a).
  simpl. apply Permutation_refl.
Defined.

(** C3, as stated, for one thread reading stations B, A and C in this
    order.  A table that iterates in insertion order reports B, A, C.  So
    does a table that iterates from the newest key to the oldest: the
    thread's table is read as C, A, B, merged in that order, and the global
    table is read backwards again.  The report is not sorted, and the
    program has no sorting step. *)
Lemma report_not_sorted :
  let data := bytes "B;1.0" ++ [char_nl] ++ bytes "A;2.0" ++ [char_nl] ++
              bytes "C;3.0" ++ [char_nl] in
  let keys (M : UnorderedMap) :=
    option_map (fun loc_data => map line_key (@report M loc_data))
               (@run_threads M data 1 (thread_ids 1)) in
  keys insertion_order_map = Some [bytes "B"; bytes "A"; bytes "C"] /\
  keys newest_first_map = Some [bytes "B"; bytes "A"; bytes "C"] /\
  sorted_keys [bytes "B"; bytes "A"; bytes "C"] = false.
Proof. vm_compute. repeat split. Qed.

(** C3, amended.  The report has exactly one line per key of the table, in
    the order in which the table iterates, whatever that order is; nothing
    sorts the lines.  A table filled from records has a line for a key exactly
    when some record has that key. *)
Theorem report_one_line_per_key {M : UnorderedMap} :
  (forall loc_data : umap,
     map line_key (report loc_data) = map fst (um_items loc_data) /\
     NoDup (map line_key (report loc_data)) /\
     (forall k, In k (map line_key (report loc_data)) <-> um_find k loc_data <> None)) /\
  (forall (rs : list record) (k : key),
     In k (map line_key (report (aggregate rs um_empty))) <-> In k (map fst rs)).
Proof.
  split.
  - intros loc_data. rewrite ReportFacts.report_keys. repeat split.
    + apply um_items_nodup.
    + apply ReportFacts.in_items_keys.
    + apply ReportFacts.in_items_keys.
  - intros rs k. rewrite ReportFacts.report_keys, ReportFacts.in_items_keys.
    apply ReportFacts.find_aggregate_keys.
Qed.

(** C4, as stated, at the empty span: the span matches the grammar and the
    specification assigns it [+0], but [parse_float] reads the byte after
    the span.  At the end of the mapping that read has no value; and when a
    ['-'] follows the span the result is [-0]. *)
Lemma parse_float_empty_span :
  let l := NumericSpec.mk_literal false [] None in
  NumericSpec.well_formed l /\
  NumericSpec.lit_bytes l = [] /\
  NumericSpec.value l = S754_zero false /\
  parse_float (NumericSpec.lit_bytes l ++ []) (length (NumericSpec.lit_bytes l)) = None /\
  parse_float (NumericSpec.lit_bytes l ++ [char_minus]) (length (NumericSpec.lit_bytes l))
  = Some (S754_zero true).
Proof. repeat split; constructor. Qed.

(** C4, amended.  For every non-empty span of the grammar (optional leading
    minus, integer digits, optional point, fractional digits), whatever bytes
    follow it, [parse_float] returns the value the specification describes:
    integer part by multiply-by-10-and-add, fractional part with a factor
    decaying by 0.1 per digit, negated after a leading minus.  An empty digit
    sequence contributes 0: [".5"] gives 0.5 and ["5."] gives 5.0. *)
Theorem parse_float_decimal :
  (forall l rest,
     NumericSpec.well_formed l -> NumericSpec.lit_bytes l <> [] ->
     parse_float (NumericSpec.lit_bytes l ++ rest) (length (NumericSpec.lit_bytes l))
     = Some (NumericSpec.value l)) /\
  parse_float (bytes ".5") 2 = Some (F32.div (F32.of_Z 1) (F32.of_Z 2)) /\
  parse_float (bytes "5.") 2 = Some (F32.of_Z 5).
Proof.
  split; [|split].
  - apply ParseFloatRefinement.parse_float_value.
  - vm_compute. reflexivity.
  - vm_compute. reflexivity.
Qed.

Lemma parse_float_decimal_witness :
  parse_float (bytes "-12.5" ++ bytes ";") 5 =
  Some (NumericSpec.value (NumericSpec.mk_literal true (bytes "12") (Some (bytes "5")))).
Proof.
  apply (proj1 parse_float_decimal
           (NumericSpec.mk_literal true (bytes "12") (Some (bytes "5"))) (bytes ";")).
  - split; repeat constructor.
  - discriminate.
Defined.

(** C5, as stated, for three threads that each read one line of station A:
    the sum in the final table depends on the order in which the threads
    merge.  And for two threads that read 0.0 and -0.0: so does the sign of
    the minimum. *)
Lemma merge_order_sum_differs :
  let data := bytes "A;0.10" ++ [char_nl] ++ bytes "A;0.10" ++ [char_nl] ++
              bytes "A;10.0" ++ [char_nl] in
  let zdata := bytes "A;0.0" ++ [char_nl] ++ bytes "A;-0.0" ++ [char_nl] in
  let field {A} (f : locationData -> A) (run : option umap) :=
    match run with
    | Some loc_data => option_map f (um_find (bytes "A") loc_data)
    | None => None
    end in
  map (chunk_range 21 3) (thread_ids 3) = [(0, 7); (7, 14); (14, 21)]%Z /\
  field total (run_threads data 3 [0; 1; 2]%Z) = Some (S754_finite false 10695475 (-20)) /\
  field total (run_threads data 3 [1; 2; 0]%Z) = Some (S754_finite false 10695476 (-20)) /\
  map (chunk_range 13 2) (thread_ids 2) = [(0, 6); (6, 13)]%Z /\
  field temp_min (run_threads zdata 2 [0; 1]%Z) = Some (S754_zero false) /\
  field temp_min (run_threads zdata 2 [1; 0]%Z) = Some (S754_zero true).
Proof. vm_compute. repeat split. Qed.

(** C5, amended.  Merging the thread tables in any order gives, for every
    key, the same count and, as numbers, the same minimum and maximum; for
    these fields the reduction is associative and commutative.  The sum is
    the float sum of the tables' sums in merge order, which rounds
    differently in different orders.  The same holds of two runs of the
    program whose threads take the lock in different orders. *)
Theorem merge_order {M : UnorderedMap} :
  (forall (ts ts' : list umap) (k : key),
     Permutation ts ts' ->
     stats_agree (um_find k (merge_tables ts um_empty))
                 (um_find k (merge_tables ts' um_empty))) /\
  (forall (ts : list umap) (k : key) (s : locationData),
     um_find k (merge_tables ts um_empty) = Some s ->
     total s = running_sum (F32.of_Z 0) (map total (entries_of k ts))) /\
  (forall data num_threads schedule schedule' loc_data loc_data' (k : key),
     Permutation schedule schedule' ->
     run_threads data num_threads schedule = Some loc_data ->
     run_threads data num_threads schedule' = Some loc_data' ->
     stats_agree (um_find k loc_data) (um_find k loc_data')).
Proof.
  split; [|split].
  - intros ts ts' k. apply ThreadFacts.merge_tables_perm.
  - intros ts k s. apply ThreadFacts.merge_tables_total.
  - intros data n schedule schedule' g g' k Hperm Hg Hg'.
    apply ThreadFacts.run_threads_tables in Hg, Hg'.
    destruct Hg as [_ [ts [Hts ->]]]. destruct Hg' as [_ [ts' [Hts' ->]]].
    apply ThreadFacts.merge_tables_perm. apply ThreadFacts.map_Some_perm.
    rewrite <- Hts, <- Hts'. now apply Permutation_map.
Qed.

Lemma merge_order_witness :
  let t1 := um_modify (bytes "A") (update_stats F32.one) um_empty in
  let t2 := um_modify (bytes "A") (update_stats F32.ten) um_empty in
  stats_agree (um_find (bytes "A") (merge_tables [t1; t2] um_empty))
              (um_find (bytes "A") (merge_tables [t2; t1] um_empty)).
Proof.
  intros t1 t2.
  apply (proj1 merge_order [t1; t2] [t2; t1] (bytes "A")).
  apply perm_swap.
Defined.

(** C6.  A line that contains no [';'] leaves the table as it is: no station
    is created and no count, sum, minimum or maximum changes; and the call
    returns (it is [Some], not a failed read). *)
Theorem process_line_without_delimiter {M : UnorderedMap}
    (data : list byte) (line : string_view) (bs : list byte) (loc_data : umap) :
  sv_bytes data line = Some bs ->
  ~ In char_semi bs ->
  process_line data line loc_data = Some loc_data.
Proof.
  intros Hbs Hno. unfold process_line. rewrite Hbs.
  now rewrite (find_byte_none _ _ Hno).
Qed.

Lemma process_line_without_delimiter_witness :
  process_line (bytes "Hamburg 12.0") (mk_sv 0 12) (um_modify (bytes "Oslo") (update_stats F32.one) um_empty)
  = Some (um_modify (bytes "Oslo") (update_stats F32.one) um_empty).
Proof.
  apply (process_line_without_delimiter (bytes "Hamburg 12.0") (mk_sv 0 12)
           (bytes "Hamburg 12.0")).
  - reflexivity.
  - vm_compute. intuition discriminate.
Defined.

(** C7.  For a range [start_pos, end) of the buffer, [process_chunk] hands
    the line handler exactly the maximal newline-free segments of the range,
    in order: each line runs to the next newline, which is not part of the
    line and is skipped, or to [end]; a last line without a newline is
    handed over too. *)
Theorem process_chunk_lines {State : Type}
    (handler : string_view -> State -> option State)
    (data : list byte) (start_pos end_ : nat) (s : State) :
  start_pos <= end_ <= length data ->
  let range := firstn (end_ - start_pos) (skipn start_pos data) in
  let ls := LineSpec.split_lines range in
  LineSpec.lines_of range ls /\
  map (sv_bytes data) (LineSpec.views_from start_pos ls) = map Some ls /\
  process_chunk_with handler data start_pos end_ s =
  LineSpec.fold_handler handler (LineSpec.views_from start_pos ls) s.
Proof.
  intros H range ls.
  destruct (ChunkFacts.range_split data start_pos end_ H) as (Hdata & Hpre & Hlen).
  fold range in Hdata, Hlen.
  set (pre := firstn start_pos data) in *. set (post := skipn end_ data) in *.
  assert (Hls : LineSpec.lines_of range ls) by apply ChunkFacts.split_lines_spec.
  clearbody ls. clearbody range pre post.
  assert (He : end_ = length pre + length range) by lia.
  clear H Hlen. subst data start_pos end_.
  split; [exact Hls|]. split.
  - now apply ChunkFacts.views_bytes.
  - unfold process_chunk_with.
    replace (length pre + length range - length pre) with (length range) by lia.
    now apply ChunkFacts.chunk_loop_lines.
Qed.

Lemma process_chunk_lines_witness :
  let data := bytes "a;1" ++ [char_nl] ++ bytes "b;2" in
  process_chunk_with (fun v log => Some (log ++ [v])) data 0 7 [] =
  Some [mk_sv 0 3; mk_sv 4 3].
Proof.
  intros data.
  destruct (process_chunk_lines (fun v log => Some (log ++ [v])) data 0 7 [])
    as (_ & _ & H).
  - vm_compute. split; repeat constructor.
  - rewrite H. reflexivity.
Defined.

(** C8.  For statistics reached from the initial record (count 0, sum 0,
    min +99, max -99) by per-record updates, once the count is positive,
    [min <= v <= max] for every value [v] observed. *)
Theorem reachable_min_max (vs : list float) (s : locationData) :
  reachable vs s ->
  (0 < count s)%Z ->
  forall v, In v vs ->
    F32.leb (temp_min s) v = true /\ F32.leb v (temp_max s) = true.
Proof.
  intros Hr _ v Hv.
  destruct (reachable_update_all _ _ Hr) as [-> Hnan].
  destruct (StatsFacts.update_all_fields vs locationData_init) as (_ & _ & Hmin & Hmax).
  rewrite Hmin, Hmax.
  assert (Hn : F32.is_nan v = false) by (rewrite Forall_forall in Hnan; auto).
  split.
  - now apply (StatsFacts.running_min_spec vs _ MergeFacts.init_min_not_nan).
  - now apply (StatsFacts.running_max_spec vs _ MergeFacts.init_max_not_nan).
Qed.

Lemma reachable_min_max_witness :
  F32.leb (temp_min (update_stats (F32.of_Z 5) locationData_init)) (F32.of_Z 5) = true /\
  F32.leb (F32.of_Z 5) (temp_max (update_stats (F32.of_Z 5) locationData_init)) = true.
Proof.
  apply (reachable_min_max ([] ++ [F32.of_Z 5])).
  - apply (reach_update [] locationData_init (bytes "5.") 2).
    + apply reach_init.
    + vm_compute. reflexivity.
  - vm_compute. reflexivity.
  - simpl. left. reflexivity.
Defined.

(** C9.  In any run on a mapping of fewer than [2^64] bytes with
    [1 <= num_threads], every key of the final table has [count >= 1]: a key
    is created together with an increment of its count, merging adds counts
    that are at least 1, and no count can wrap because a thread counts at
    most one record per byte.  So the divisor of [total / count] in the
    report is never zero. *)
Theorem final_counts_positive {M : UnorderedMap}
    (data : list byte) (num_threads : Z) (schedule : list Z) (loc_data : umap) :
  (Z.of_nat (length data) < 2 ^ 64)%Z ->
  (1 <= num_threads < 2 ^ 64)%Z ->
  Permutation schedule (thread_ids num_threads) ->
  run_threads data num_threads schedule = Some loc_data ->
  (forall k v, um_find k loc_data = Some v -> (1 <= count v)%Z) /\
  (forall k c avg mn mx, In (k, c, avg, mn, mx) (report loc_data) -> c <> 0%Z).
Proof.
  intros Hlen Hn Hperm Hrun.
  pose proof (CountFacts.run_threads_counts data num_threads schedule loc_data
                Hlen Hn Hperm Hrun) as H.
  split.
  - intros k v Hk. specialize (H k v Hk). lia.
  - intros k c avg mn mx Hin. unfold report in Hin. apply in_map_iff in Hin.
    destruct Hin as [[k' v] [Heq Hin]]. unfold report_line in Heq. simpl in Heq.
    injection Heq as -> <- _ _ _. apply um_items_find in Hin.
    specialize (H k v Hin). lia.
Qed.

Lemma final_counts_positive_witness :
  let loc_data :=
    merge_tables [um_modify (bytes "A") (update_stats (F32.of_Z 1)) um_empty;
                  um_modify (bytes "A") (update_stats (F32.of_Z 2)) um_empty]
                 um_empty in
  (1 <= count (um_at (bytes "A") loc_data))%Z.
Proof.
  intros loc_data.
  apply (proj1 (final_counts_positive
                  (bytes "A;1.0" ++ [char_nl] ++ bytes "A;2.0" ++ [char_nl])
                  2 [1; 0]%Z loc_data
                  ltac:(vm_compute; reflexivity) ltac:(lia)
                  (perm_swap 0%Z 1%Z []) ltac:(vm_compute; reflexivity))
          (bytes "A")).
  vm_compute. reflexivity.
Defined.

(** C10.  When [len >= 1], [parse_float(str, len)] reads [str] only at
    indices in [0, len).  The bound on [len] is needed: whatever [len] is,
    the first read is at index 0, and for [len = 0] it is the only read, at
    an index that is not below [len]; where the mapping ends with the span
    (a last line that ends in the delimiter) that read has no value. *)
Theorem parse_float_reads_within_span :
  (forall str len, 1 <= len ->
     Forall (fun i => 0 <= i < len) (parse_float_reads str len)) /\
  (forall str len, exists rest, parse_float_reads str len = 0 :: rest) /\
  (forall str, parse_float_reads str 0 = [0]) /\
  parse_float [] 0 = None.
Proof.
  split; [|split; [|split]]; [| | |reflexivity].
  - intros str len Hlen.
    eapply Forall_impl; [|apply ParseFloatFacts.parse_float_reads_bounded; exact Hlen].
    simpl. intros; lia.
  - apply ParseFloatFacts.parse_float_reads_first.
  - intros str. unfold parse_float_reads, Rd.reads, parse_float_rd, Rd.bind, Rd.load.
    destruct str as [|c str]; [reflexivity|]. simpl.
    destruct (Byte.eqb c char_minus); reflexivity.
Qed.

Lemma parse_float_reads_within_span_witness :
  1 <= 4 /\ Forall (fun i => 0 <= i < 4) (parse_float_reads (bytes "-3.5") 4).
Proof.
  split; [lia|].
  apply (proj1 parse_float_reads_within_span (bytes "-3.5") 4). lia.
Defined.

(** * Further facts *)

Module ParseFloatTotal.
Import ParseFloatRefinement.

Section Loops.

Variable str : list byte.

Lemma load_some i : i < length str -> exists c, nth_error str i = Some c.
Proof.
  intros H. destruct (nth_error str i) as [c|] eqn:E; [eauto|].
  apply nth_error_None in E. lia.
Qed.

Lemma int_loop_some left : forall i r log,
  i + left <= length str ->
  exists i' r', fst (int_loop str left i r log) = Some (i', r').
Proof.
  induction left as [|left IH]; intros i r log H; simpl; [eauto|].
  rewrite fst_bind_load. destruct (load_some i ltac:(lia)) as [c ->].
  destruct (Byte.eqb c char_point); [simpl; eauto|].
  apply IH. lia.
Qed.

Lemma frac_loop_some left : forall i fraction r log,
  i + left <= length str ->
  exists r', fst (frac_loop str left i fraction r log) = Some r'.
Proof.
  induction left as [|left IH]; intros i fraction r log H; simpl; [eauto|].
  rewrite fst_bind_load. destruct (load_some i ltac:(lia)) as [c ->].
  apply IH. lia.
Qed.

(** With one byte mapped at [str] and the span inside the mapping, every
    read of [parse_float] has a value. *)
Lemma parse_float_some len :
  1 <= length str -> len <= length str ->
  exists v, parse_float str len = Some v.
Proof.
  intros H1 Hlen. unfold parse_float, Rd.run, parse_float_rd.
  rewrite fst_bind_load. destruct (load_some 0 H1) as [c0 ->].
  set (i0 := if Byte.eqb c0 char_minus then 1 else 0).
  assert (Hi0 : i0 <= 1) by (subst i0; destruct (Byte.eqb c0 char_minus); lia).
  rewrite fst_bind.
  destruct (int_loop_some (len - i0) i0 F32.zero ([] ++ [0]) ltac:(lia))
    as (i & r & Hint).
  destruct (ParseFloatFacts.int_loop_inv str (len - i0) i0 F32.zero ([] ++ [0]) eq_refl)
    as [_ Hb].
  destruct (Hb _ _ Hint) as [Hi _]. rewrite Hint.
  rewrite fst_bind.
  destruct (i <? len) eqn:Hlt.
  - apply Nat.ltb_lt in Hlt. rewrite fst_bind_load.
    destruct (load_some i ltac:(lia)) as [c ->].
    destruct (Byte.eqb c char_point).
    + destruct (frac_loop_some (len - S i) (S i) F32.one r
                  (snd (int_loop str (len - i0) i0 F32.zero ([] ++ [0])) ++ [i])
                  ltac:(lia)) as [r' ->].
      simpl. eauto.
    + simpl. eauto.
  - simpl. eauto.
Qed.

End Loops.
End ParseFloatTotal.

Module LineFacts.

Lemma find_byte_first c k r :
  ~ In c k -> find_byte c (k ++ c :: r) = Some (length k).
Proof.
  induction k as [|b k IH]; simpl; intros H.
  - now rewrite Byte.byte_dec_lb.
  - destruct (Byte.eqb b c) eqn:E.
    + apply Byte.byte_dec_bl in E. tauto.
    + rewrite IH; tauto.
Qed.


Section WithMap.

Context {M : UnorderedMap}.

(** A line cut at its first [';']: the key is what precedes it, and
    [parse_float] is given what follows it. *)
Lemma process_line_split pre k val rest t :
  ~ In char_semi k ->
  process_line (pre ++ (k ++ char_semi :: val) ++ rest)
               (mk_sv (length pre) (length (k ++ char_semi :: val))) t =
  match parse_float (val ++ rest) (length val) with
  | Some v => Some (um_modify k (update_stats v) t)
  | None => None
  end.
Proof.
  intros Hk. unfold process_line.
  rewrite ChunkFacts.sv_bytes_middle, (find_byte_first _ _ _ Hk).
  cbn [sv_data sv_size].
  rewrite firstn_app, Nat.sub_diag, firstn_all. simpl firstn. rewrite app_nil_r.
  replace (skipn (length pre + length k + 1) (pre ++ (k ++ char_semi :: val) ++ rest))
    with (val ++ rest).
  2:{ replace (pre ++ (k ++ char_semi :: val) ++ rest)
        with ((pre ++ k ++ [char_semi]) ++ val ++ rest)
        by (rewrite <- !app_assoc; reflexivity).
      replace (length pre + length k + 1) with (length (pre ++ k ++ [char_semi]))
        by (rewrite !length_app; simpl; lia).
      rewrite skipn_app, Nat.sub_diag, skipn_all. reflexivity. }
  replace (length (k ++ char_semi :: val) - length k - 1) with (length val)
    by (rewrite length_app; simpl; lia).
  reflexivity.
Qed.


End WithMap.
End LineFacts.

Module ChunkCompose.
Import LineSpec ChunkFacts.

Lemma last_app_nl l bs : last (l ++ char_nl :: bs) char_nl = last bs char_nl.
Proof.
  induction l as [|c l IH]; simpl.
  - destruct bs; reflexivity.
  - rewrite <- IH. destruct (l ++ char_nl :: bs) eqn:E; [|reflexivity].
    destruct l; discriminate.
Qed.

Lemma last_in {A} (l : list A) d : l <> [] -> In (last l d) l.
Proof.
  intros H. rewrite (app_removelast_last d H) at 2.
  apply in_or_app. right. now left.
Qed.

Lemma newline_free_last l : newline_free l -> l <> [] -> last l char_nl <> char_nl.
Proof. intros Hl Hne E. apply Hl. rewrite <- E. now apply last_in. Qed.

(** A range that ends with a newline (or is empty) ends a line: the lines of
    what follows are appended. *)
Lemma lines_of_app a la b lb :
  lines_of a la -> lines_of b lb -> last a char_nl = char_nl ->
  lines_of (a ++ b) (la ++ lb).
Proof.
  intros Ha Hb. induction Ha as [|l Hl Hne|l bs ls Hl H IH]; intros Hlast.
  - exact Hb.
  - now apply newline_free_last in Hlast.
  - rewrite last_app_nl in Hlast. rewrite <- app_assoc. simpl.
    apply lines_next; auto.
Qed.

Lemma views_from_app a la :
  lines_of a la -> last a char_nl = char_nl ->
  forall start lb,
    views_from start (la ++ lb) =
    views_from start la ++ views_from (start + length a) lb.
Proof.
  induction 1 as [|l Hl Hne|l bs ls Hl H IH]; intros Hlast start lb.
  - simpl. now rewrite Nat.add_0_r.
  - now apply newline_free_last in Hlast.
  - rewrite last_app_nl in Hlast. simpl. f_equal.
    rewrite IH by assumption. f_equal. f_equal.
    rewrite length_app. simpl. lia.
Qed.

Lemma fold_handler_app {State} (handler : string_view -> State -> option State)
    vs1 vs2 : forall s,
  fold_handler handler (vs1 ++ vs2) s =
  match fold_handler handler vs1 s with
  | Some s' => fold_handler handler vs2 s'
  | None => None
  end.
Proof.
  induction vs1 as [|v vs1 IH]; intros s; simpl; [reflexivity|].
  destruct (handler v s); auto.
Qed.

Lemma firstn_plus {A} n m : forall l : list A,
  firstn (n + m) l = firstn n l ++ firstn m (skipn n l).
Proof.
  induction n as [|n IH]; intros l; [reflexivity|].
  destruct l as [|x l]; simpl.
  - now rewrite firstn_nil.
  - now rewrite IH.
Qed.

Lemma range_app (data : list byte) s mid e :
  s <= mid <= e ->
  firstn (e - s) (skipn s data) =
  firstn (mid - s) (skipn s data) ++ firstn (e - mid) (skipn mid data).
Proof.
  intros H. replace (e - s) with ((mid - s) + (e - mid)) by lia.
  rewrite firstn_plus, skipn_skipn. do 3 f_equal. lia.
Qed.

Lemma last_range (data : list byte) s mid c d :
  s < mid -> nth_error data (mid - 1) = Some c ->
  last (firstn (mid - s) (skipn s data)) d = c.
Proof.
  intros Hs Hc.
  assert (Hlen : mid - 1 < length data) by (apply nth_error_Some; congruence).
  replace (mid - s) with ((mid - 1 - s) + 1) by lia.
  rewrite firstn_plus, skipn_skipn.
  replace (mid - 1 - s + s) with (mid - 1) by lia.
  destruct (skipn (mid - 1) data) as [|x rest] eqn:E.
  - apply (f_equal (@length byte)) in E. rewrite length_skipn in E. simpl in E. lia.
  - simpl firstn. rewrite last_last.
    assert (Hx : nth_error (skipn (mid - 1) data) 0 = Some x) by now rewrite E.
    rewrite nth_error_skipn, Nat.add_0_r in Hx. congruence.
Qed.

(** The lines of two adjacent ranges, the first of which ends a line. *)
Lemma split_lines_app a b :
  last a char_nl = char_nl ->
  split_lines (a ++ b) = split_lines a ++ split_lines b.
Proof.
  intros H. symmetry. apply lines_of_unique.
  apply lines_of_app; auto using split_lines_spec.
Qed.

End ChunkCompose.

Module FileFacts.
Import LineSpec ChunkFacts NumericSpec.





Section WithMap.

Context {M : UnorderedMap}.




End WithMap.
End FileFacts.

Module SafetyFacts.
Import LineSpec ChunkFacts ChunkCompose.

Local Open Scope Z_scope.

Section WithMap.

Context {M : UnorderedMap}.






(** *** More threads than bytes *)

Lemma um_items_empty : um_items um_empty = [].
Proof.
  destruct (um_items um_empty) as [|[k v] l] eqn:E; [reflexivity|].
  assert (H : In (k, v) (um_items um_empty)) by (rewrite E; now left).
  apply um_items_find in H. rewrite um_find_empty in H. discriminate.
Qed.

Lemma merge_local_empty g : merge_local um_empty g = g.
Proof. unfold merge_local. now rewrite um_items_empty. Qed.

Lemma worker_small data n i :
  Z.of_nat (length data) < n < 2 ^ 64 -> 0 <= i < n ->
  worker data n i =
  if i =? n - 1 then process_chunk data 0 (length data) um_empty
  else Some um_empty.
Proof.
  intros Hn Hi. unfold worker.
  rewrite PlanFacts.chunk_range_plain by lia.
  rewrite Z.div_small by lia. rewrite !Z.mul_0_r.
  destruct (i =? n - 1).
  - now rewrite Nat2Z.id.
  - reflexivity.
Qed.

Lemma fold_merge_small data n schedule : forall g,
  Z.of_nat (length data) < n < 2 ^ 64 ->
  Forall (fun i => 0 <= i < n) schedule -> NoDup schedule ->
  fold_left (ThreadFacts.merge_step data n) schedule (Some g) =
  if in_dec Z.eq_dec (n - 1) schedule
  then match process_chunk data 0 (length data) um_empty with
       | Some t => Some (merge_local t g)
       | None => None
       end
  else Some g.
Proof.
  intros g Hn Hs Hnd. revert g.
  induction schedule as [|i schedule IH]; intros g; [reflexivity|].
  inversion Hs as [|? ? Hi Hs']; subst. inversion Hnd as [|? ? Hnotin Hnd']; subst.
  cbn [fold_left].
  replace (ThreadFacts.merge_step data n (Some g) i)
    with (match (if i =? n - 1 then process_chunk data 0 (length data) um_empty
                 else Some um_empty) with
          | Some t => Some (merge_local t g)
          | None => None
          end)
    by (unfold ThreadFacts.merge_step; now rewrite worker_small).
  destruct (Z.eqb_spec i (n - 1)) as [->|Hne].
  - destruct (in_dec Z.eq_dec (n - 1) ((n - 1) :: schedule)) as [_|Hno];
      [|exfalso; apply Hno; now left].
    destruct (process_chunk data 0 (length data) um_empty) as [t|].
    + rewrite IH by assumption.
      destruct (in_dec Z.eq_dec (n - 1) schedule); [contradiction|reflexivity].
    + apply ThreadFacts.merge_step_none.
  - rewrite merge_local_empty, IH by assumption.
    destruct (in_dec Z.eq_dec (n - 1) schedule) as [Hin|Hno];
      destruct (in_dec Z.eq_dec (n - 1) (i :: schedule)) as [Hin'|Hno'];
      try reflexivity.
    + exfalso. apply Hno'. now right.
    + destruct Hin' as [->|Hin']; [congruence|contradiction].
Qed.

Lemma thread_ids_nodup n : NoDup (thread_ids n).
Proof.
  unfold thread_ids. generalize (seq_NoDup (Z.to_nat n) 0).
  induction 1 as [|m l Hm _ IH]; simpl; constructor; auto.
  intros H. apply in_map_iff in H. destruct H as [m' [E H]].
  apply Nat2Z.inj in E. congruence.
Qed.

End WithMap.
End SafetyFacts.

Module SentinelFacts.
Import F32Order.

Lemma lt_not_ge x y : lt x y -> le y x -> False.
Proof.
  rewrite lt_rank, le_rank. intros (_ & _ & H) (_ & _ & H'). contradiction.
Qed.

Lemma running_min_stuck vs : forall m,
  (forall v, In v vs -> F32.ltb v m = false) -> running_min m vs = m.
Proof.
  unfold running_min. induction vs as [|v vs IH]; intros m H; [reflexivity|].
  simpl. rewrite (H v (or_introl eq_refl)). apply IH. intros; apply H. now right.
Qed.

Lemma running_max_stuck vs : forall m,
  (forall v, In v vs -> F32.ltb m v = false) -> running_max m vs = m.
Proof.
  unfold running_max. induction vs as [|v vs IH]; intros m H; [reflexivity|].
  simpl. rewrite (H v (or_introl eq_refl)). apply IH. intros; apply H. now right.
Qed.

Lemma running_min_observed vs m v :
  F32.is_nan m = false -> In v vs -> F32.ltb v m = true -> In (running_min m vs) vs.
Proof.
  intros Hm Hv Hlt.
  destruct (StatsFacts.running_min_spec vs m Hm) as (_ & [E|Hin] & _ & Hall); auto.
  exfalso. apply (lt_not_ge v m Hlt). rewrite <- E.
  apply Hall; [assumption | apply (lt_not_nan _ _ Hlt)].
Qed.

Lemma running_max_observed vs m v :
  F32.is_nan m = false -> In v vs -> F32.ltb m v = true -> In (running_max m vs) vs.
Proof.
  intros Hm Hv Hlt.
  destruct (StatsFacts.running_max_spec vs m Hm) as (_ & [E|Hin] & _ & Hall); auto.
  exfalso. apply (lt_not_ge m v Hlt). rewrite <- E.
  apply Hall; [assumption | apply (lt_not_nan _ _ Hlt)].
Qed.



End SentinelFacts.

Module SingleFacts.
Section WithMap.

Context {M : UnorderedMap}.

Lemma worker_single data :
  worker data 1 0 = process_chunk data 0 (length data) um_empty.
Proof.
  unfold worker, chunk_range. rewrite Z.div_1_r. simpl Z.mul.
  change (wrap64 0) with 0%Z. change (wrap64 (1 - 1)) with 0%Z.
  simpl. now rewrite Nat2Z.id.
Qed.

(** The run with one thread. *)
Lemma run_single data :
  run_threads data 1 [0%Z] =
  match process_chunk data 0 (length data) um_empty with
  | Some t => Some (merge_local t um_empty)
  | None => None
  end.
Proof. unfold run_threads. simpl. now rewrite worker_single. Qed.



End WithMap.
End SingleFacts.

Module AlignedFacts.
Import LineSpec ChunkFacts ChunkCompose.

Definition app_records (a b : option (list record)) : option (list record) :=
  match a, b with
  | Some x, Some y => Some (x ++ y)
  | _, _ => None
  end.

Lemma records_of_views_app data vs1 vs2 :
  records_of_views data (vs1 ++ vs2) =
  app_records (records_of_views data vs1) (records_of_views data vs2).
Proof.
  induction vs1 as [|v vs1 IH]; simpl.
  - destruct (records_of_views data vs2); reflexivity.
  - rewrite IH. destruct (line_record data v) as [r|]; [|reflexivity].
    destruct (records_of_views data vs1), (records_of_views data vs2);
      try reflexivity.
    destruct r; reflexivity.
Qed.

Lemma chunk_records_empty data s : chunk_records data s s = Some [].
Proof. unfold chunk_records. now rewrite Nat.sub_diag. Qed.

Lemma chunk_records_split data s mid e :
  s <= mid <= e -> e <= length data ->
  mid = s \/ mid = e \/ nth_error data (mid - 1) = Some char_nl ->
  chunk_records data s e =
  app_records (chunk_records data s mid) (chunk_records data mid e).
Proof.
  intros Hr He Hmid.
  destruct (Nat.eq_dec mid e) as [->|Hne].
  { rewrite chunk_records_empty. unfold app_records.
    destruct (chunk_records data s e); [now rewrite app_nil_r|reflexivity]. }
  unfold chunk_records.
  rewrite (range_app data s mid e Hr).
  set (a := firstn (mid - s) (skipn s data)).
  assert (Ha : length a = mid - s).
  { subst a. rewrite length_firstn, length_skipn. lia. }
  assert (Hlast : last a char_nl = char_nl).
  { destruct (Nat.eq_dec mid s) as [E|E].
    - subst a. rewrite E, Nat.sub_diag. reflexivity.
    - destruct Hmid as [Hmid|[Hmid|Hmid]]; try contradiction.
      apply last_range; [lia | exact Hmid]. }
  rewrite split_lines_app by exact Hlast.
  rewrite (views_from_app a _ (split_lines_spec a) Hlast).
  rewrite records_of_views_app.
  replace (s + length a) with mid by lia. reflexivity.
Qed.

(** The records of chained ranges whose interior boundaries follow
    newlines are the records of the whole range. *)
Lemma chained_records data ranges : forall s e rss,
  chained s ranges e -> e <= length data ->
  Forall (fun r => after_newline data (fst r)) (tl ranges) ->
  Forall2 (fun r rs => chunk_records data (fst r) (snd r) = Some rs) ranges rss ->
  chunk_records data s e = Some (concat rss).
Proof.
  induction ranges as [|r ranges IH]; intros s e rss Hch He Hal Hrs.
  - inversion Hch; subst. inversion Hrs; subst. apply chunk_records_empty.
  - inversion Hch as [|? mid ? ? Hs Hch']; subst.
    inversion Hrs as [|? rs ? rss' Hr Hrs']; subst. cbn [fst snd tl] in *.
    assert (Hmid : mid <= e).
    { clear -Hch'. induction Hch'; lia. }
    assert (Hsplit : mid = s \/ mid = e \/ nth_error data (mid - 1) = Some char_nl).
    { destruct ranges as [|r' ranges'].
      - inversion Hch'; subst. auto.
      - inversion Hch'; subst. inversion Hal as [|? ? [H0|Hnl] _]; subst;
          cbn [fst] in *; [left; lia | auto]. }
    rewrite (chunk_records_split data s mid e) by (auto; lia).
    rewrite Hr.
    assert (Hal' : Forall (fun r => after_newline data (fst r)) (tl ranges)).
    { destruct ranges; [constructor | now inversion Hal]. }
    rewrite (IH mid e rss' Hch' He Hal' Hrs').
    reflexivity.
Qed.

Section WithMap.

Context {M : UnorderedMap}.

Lemma process_line_record data line t :
  process_line data line t =
  match line_record data line with
  | None => None
  | Some None => Some t
  | Some (Some r) => Some (add_record t r)
  end.
Proof.
  unfold process_line, line_record.
  destruct (sv_bytes data line) as [bs|]; [|reflexivity].
  destruct (find_byte char_semi bs) as [pos|]; [|reflexivity].
  destruct (parse_float _ _); reflexivity.
Qed.

Lemma fold_handler_records data vs : forall t,
  fold_handler (process_line data) vs t =
  option_map (fun rs => aggregate rs t) (records_of_views data vs).
Proof.
  induction vs as [|v vs IH]; intros t; [reflexivity|].
  cbn [fold_handler records_of_views]. rewrite process_line_record.
  destruct (line_record data v) as [[r|]|]; [| |reflexivity].
  - rewrite IH. destruct (records_of_views data vs); reflexivity.
  - rewrite IH. destruct (records_of_views data vs); reflexivity.
Qed.

Lemma process_chunk_records data s e t :
  s <= e <= length data ->
  process_chunk data s e t =
  option_map (fun rs => aggregate rs t) (chunk_records data s e).
Proof.
  intros H. unfold process_chunk.
  rewrite process_chunk_with_fold by assumption.
  apply fold_handler_records.
Qed.

End WithMap.
End AlignedFacts.

Module AlignedRun.
Import AlignedFacts.

Lemma Forall2_map_in {A B C} (P : B -> C -> Prop) (f : A -> B) (g : A -> C) l :
  (forall x, In x l -> P (f x) (g x)) -> Forall2 P (map f l) (map g l).
Proof.
  induction l as [|x l IH]; intros H; simpl; constructor.
  - apply H. now left.
  - apply IH. intros y Hy. apply H. now right.
Qed.

Lemma chained_end s ranges e : chained s ranges e -> s <= e.
Proof. induction 1; lia. Qed.

Section Plan.

Variable data : list byte.
Variable n : Z.
Hypothesis size_range : (Z.of_nat (length data) < 2 ^ 64)%Z.
Hypothesis n_range : (1 <= n < 2 ^ 64)%Z.

Lemma thread_range_bounds i :
  (0 <= i < n)%Z ->
  fst (thread_range data n i) <= snd (thread_range data n i) <= length data.
Proof.
  intros Hi.
  pose proof (PlanFacts.chunk_range_bounds (Z.of_nat (length data)) n
                ltac:(lia) n_range i Hi) as [Hb1 Hb2].
  unfold thread_range. cbn [fst snd]. lia.
Qed.

Lemma thread_ranges_from (m : nat) : forall k : nat,
  k + m = Z.to_nat n -> 1 <= m ->
  chained (fst (thread_range data n (Z.of_nat k)))
          (map (thread_range data n) (map Z.of_nat (seq k m)))
          (length data).
Proof.
  destruct (PlanFacts.chunk_range_contiguous (Z.of_nat (length data)) n
              ltac:(lia) n_range) as (_ & Hlast & Hnext).
  induction m as [|m IH]; intros k Hk Hm; [lia|].
  cbn [seq map].
  replace (thread_range data n (Z.of_nat k))
    with (fst (thread_range data n (Z.of_nat k)),
          snd (thread_range data n (Z.of_nat k))) at 2 by reflexivity.
  apply chained_cons.
  - apply thread_range_bounds. lia.
  - destruct m as [|m].
    + replace (snd (thread_range data n (Z.of_nat k))) with (length data).
      * apply chained_nil.
      * unfold thread_range. cbn [snd].
        replace (Z.of_nat k) with (n - 1)%Z by lia.
        rewrite Hlast. now rewrite Nat2Z.id.
    + replace (snd (thread_range data n (Z.of_nat k)))
        with (fst (thread_range data n (Z.of_nat (S k)))).
      * apply IH; lia.
      * unfold thread_range. cbn [fst snd].
        rewrite Hnext by lia. now rewrite Nat2Z.inj_succ.
Qed.

(** The ranges of the threads follow one another through the mapping. *)
Lemma thread_ranges_chained :
  chained 0 (map (thread_range data n) (thread_ids n)) (length data).
Proof.
  unfold thread_ids.
  replace 0 with (fst (thread_range data n (Z.of_nat 0))) at 1.
  - apply thread_ranges_from; lia.
  - unfold thread_range. cbn [fst].
    destruct (PlanFacts.chunk_range_contiguous (Z.of_nat (length data)) n
                ltac:(lia) n_range) as (H0 & _).
    change (Z.of_nat 0) with 0%Z. now rewrite H0.
Qed.

Lemma interior_ranges_aligned :
  (forall i, (0 < i < n)%Z -> after_newline data (fst (thread_range data n i))) ->
  Forall (fun r => after_newline data (fst r))
         (tl (map (thread_range data n) (thread_ids n))).
Proof.
  intros H. unfold thread_ids.
  destruct (Z.to_nat n) as [|m] eqn:E; [constructor|].
  cbn [seq map tl]. apply Forall_forall. intros r Hr.
  apply in_map_iff in Hr. destruct Hr as [i [<- Hi]].
  apply in_map_iff in Hi. destruct Hi as [j [<- Hj]].
  apply in_seq in Hj. apply H. lia.
Qed.

End Plan.

Section WithMap.

Context {M : UnorderedMap}.

Lemma worker_records data n i :
  (Z.of_nat (length data) < 2 ^ 64)%Z -> (1 <= n < 2 ^ 64)%Z -> (0 <= i < n)%Z ->
  worker data n i =
  option_map (fun rs => aggregate rs um_empty)
             (chunk_records data (fst (thread_range data n i))
                                 (snd (thread_range data n i))).
Proof.
  intros Hlen Hn Hi.
  pose proof (thread_range_bounds data n Hlen Hn i Hi) as Hb.
  unfold worker, thread_range in *.
  destruct (chunk_range (Z.of_nat (length data)) n i) as [s e]. cbn [fst snd] in *.
  now apply process_chunk_records.
Qed.

(** Two groupings of the same records, up to order: the merged tables hold
    the same count and, as numbers, the same minimum and maximum. *)
Lemma merged_groups_agree (groups groups' : list (list record)) k :
  Permutation (concat groups) (concat groups') ->
  stats_agree
    (um_find k (merge_tables (map (fun g => aggregate g um_empty) groups) um_empty))
    (um_find k (merge_tables (map (fun g => aggregate g um_empty) groups') um_empty)).
Proof.
  intros Hperm.
  rewrite !TableFacts.find_merge_tables, !MergeFacts.entries_of_groups, !um_find_empty.
  unfold um_at. rewrite um_find_empty.
  assert (Hvs : Permutation (concat (station_groups k groups))
                            (concat (station_groups k groups'))).
  { rewrite !MergeFacts.station_groups_concat. now apply MergeFacts.values_of_perm. }
  pose proof (MergeFacts.station_groups_nonempty k groups) as Hne.
  pose proof (MergeFacts.station_groups_nonempty k groups') as Hne'.
  destruct (MergeFacts.map_fields_groups (station_groups k groups))
    as (Emax & Emin & _).
  destruct (MergeFacts.map_fields_groups (station_groups k groups'))
    as (Emax' & Emin' & _).
  pose proof (MergeFacts.count_groups _ Hne) as Ecount.
  pose proof (MergeFacts.count_groups _ Hne') as Ecount'.
  destruct (station_groups k groups) as [|g gs];
    destruct (station_groups k groups') as [|g' gs'].
  - exact I.
  - simpl in Hvs. apply Permutation_nil in Hvs.
    inversion Hne' as [|? ? Hg _]; subst. destruct g'; [congruence|discriminate].
  - simpl in Hvs. apply Permutation_sym, Permutation_nil in Hvs.
    inversion Hne as [|? ? Hg _]; subst. destruct g; [congruence|discriminate].
  - remember (map (fun vs => update_all vs locationData_init) (g :: gs))
      as ls eqn:Els in *.
    remember (map (fun vs => update_all vs locationData_init) (g' :: gs'))
      as ls' eqn:Els' in *.
    destruct ls as [|l ls]; [discriminate|].
    destruct ls' as [|l' ls']; [discriminate|]. clear Els Els'.
    destruct (StatsFacts.merge_all_fields (l :: ls) locationData_init)
      as (_ & _ & Hmin & Hmax).
    destruct (StatsFacts.merge_all_fields (l' :: ls') locationData_init)
      as (_ & _ & Hmin' & Hmax').
    unfold stats_agree. split; [|split].
    + rewrite !StatsFacts.merge_all_count.
      unfold wrap64 in *. cbn [count locationData_init].
      rewrite !Z.add_0_l, Ecount, Ecount'. f_equal. f_equal.
      now apply Permutation_length.
    + rewrite Hmin, Hmin', Emin, Emin'.
      eapply StatsFacts.eqv_trans; [apply StatsFacts.running_min_groups; reflexivity|].
      eapply StatsFacts.eqv_trans;
        [apply StatsFacts.running_min_perm; [reflexivity|exact Hvs]|].
      apply StatsFacts.eqv_sym, StatsFacts.running_min_groups. reflexivity.
    + rewrite Hmax, Hmax', Emax, Emax'.
      eapply StatsFacts.eqv_trans; [apply StatsFacts.running_max_groups; reflexivity|].
      eapply StatsFacts.eqv_trans;
        [apply StatsFacts.running_max_perm; [reflexivity|exact Hvs]|].
      apply StatsFacts.eqv_sym, StatsFacts.running_max_groups. reflexivity.
Qed.

(** A run that returns: every thread's range has records, and the table is
    the merge of their tables in the order of the schedule. *)
Lemma run_threads_records data n schedule g :
  (Z.of_nat (length data) < 2 ^ 64)%Z -> (1 <= n < 2 ^ 64)%Z ->
  Forall (fun i => 0 <= i < n)%Z schedule ->
  run_threads data n schedule = Some g ->
  exists recs : Z -> list record,
    (forall i, In i schedule ->
       chunk_records data (fst (thread_range data n i))
                          (snd (thread_range data n i)) = Some (recs i)) /\
    g = merge_tables (map (fun rs => aggregate rs um_empty) (map recs schedule))
                     um_empty.
Proof.
  intros Hlen Hn Hs Hrun.
  destruct (ThreadFacts.run_threads_tables data n schedule g Hrun)
    as (_ & ts & Hts & ->).
  set (recs := fun i =>
         match chunk_records data (fst (thread_range data n i))
                                  (snd (thread_range data n i)) with
         | Some rs => rs
         | None => []
         end).
  exists recs.
  assert (Hrecs : forall i, In i schedule ->
            chunk_records data (fst (thread_range data n i))
                               (snd (thread_range data n i)) = Some (recs i)).
  { intros i Hi.
    assert (Hin : In (worker data n i) (map Some ts)).
    { rewrite <- Hts. now apply in_map. }
    apply in_map_iff in Hin. destruct Hin as [t [Ht _]].
    rewrite worker_records in Ht
      by (auto; rewrite Forall_forall in Hs; now apply Hs).
    subst recs. cbn beta.
    destruct (chunk_records data _ _); [reflexivity|discriminate]. }
  split; [exact Hrecs|]. f_equal.
  apply ThreadFacts.map_Some_inj. rewrite <- Hts, !map_map.
  apply map_ext_in. intros i Hi.
  rewrite worker_records by (auto; rewrite Forall_forall in Hs; now apply Hs).
  now rewrite (Hrecs i Hi).
Qed.

End WithMap.
End AlignedRun.

Module TrailingFacts.
Import LineSpec ChunkFacts AlignedFacts.

(** A line whose only [';'] is the last byte of the mapping: [parse_float]
    is handed the position after the mapping and reads it. *)
Lemma line_record_trailing pre k :
  ~ In char_semi k ->
  line_record (pre ++ k ++ [char_semi])
              (mk_sv (length pre) (length (k ++ [char_semi]))) = None.
Proof.
  intros Hk.
  pose proof (LineFacts.process_line_split pre k [] [] um_empty Hk) as H.
  rewrite app_nil_r, process_line_record in H. cbn [app length] in H.
  destruct (line_record _ _) as [[r|]|]; [discriminate H|discriminate H|reflexivity].
Qed.

Lemma chunk_records_trailing pre k :
  ~ In char_semi k -> newline_free k ->
  chunk_records (pre ++ k ++ [char_semi]) (length pre) (length pre + length k + 1)
  = None.
Proof.
  intros Hk Hnl. unfold chunk_records.
  replace (length pre + length k + 1 - length pre) with (length (k ++ [char_semi]))
    by (rewrite length_app; simpl; lia).
  rewrite skipn_app, Nat.sub_diag, skipn_all. cbn [app skipn]. rewrite firstn_all.
  rewrite <- (lines_of_unique (k ++ [char_semi]) [k ++ [char_semi]]).
  - cbn [views_from records_of_views]. now rewrite line_record_trailing.
  - apply lines_last.
    + intros H. apply in_app_or in H. destruct H as [H|[H|[]]]; [auto|discriminate].
    + destruct k; discriminate.
Qed.

Lemma nth_error_last (pre post : list byte) d :
  pre <> [] -> nth_error (pre ++ post) (length pre - 1) = Some (last pre d).
Proof.
  intros H. destruct (exists_last H) as (pre' & x & ->).
  rewrite last_last, length_app, <- app_assoc. cbn [length app].
  replace (length pre' + 1 - 1) with (length pre') by lia.
  now rewrite nth_error_app2, Nat.sub_diag by lia.
Qed.

Lemma in_skipn {A} (x : A) n l : In x (skipn n l) -> In x l.
Proof.
  intros H. rewrite <- (firstn_skipn n l). apply in_or_app. now right.
Qed.

Section WithMap.

Context {M : UnorderedMap}.

(** Any range that ends with such a line has a read outside the mapping. *)
Lemma process_chunk_trailing pre k start_pos t :
  last pre char_nl = char_nl -> ~ In char_semi k -> newline_free k ->
  start_pos <= length pre + length k ->
  process_chunk (pre ++ k ++ [char_semi]) start_pos (length pre + length k + 1) t
  = None.
Proof.
  intros Hpre Hk Hnl Hs.
  assert (Hlen : length (pre ++ k ++ [char_semi]) = length pre + length k + 1)
    by (rewrite !length_app; simpl; lia).
  rewrite process_chunk_records by lia.
  destruct (le_lt_dec start_pos (length pre)) as [Hle|Hgt].
  - rewrite (chunk_records_split _ start_pos (length pre)); [|lia|lia|].
    + rewrite chunk_records_trailing by assumption.
      destruct (chunk_records _ start_pos (length pre)); reflexivity.
    + destruct pre as [|b pre'] eqn:E; [left; simpl in *; lia|].
      right. right. rewrite <- E in *.
      rewrite (nth_error_last pre _ char_nl) by (rewrite E; discriminate).
      now rewrite Hpre.
  - set (cut := start_pos - length pre).
    replace (pre ++ k ++ [char_semi])
      with ((pre ++ firstn cut k) ++ skipn cut k ++ [char_semi])
      by (rewrite <- app_assoc, (app_assoc (firstn cut k)), firstn_skipn; reflexivity).
    assert (Hcut : length (pre ++ firstn cut k) = start_pos).
    { rewrite length_app, length_firstn. subst cut. lia. }
    replace (length pre + length k + 1)
      with (length (pre ++ firstn cut k) + length (skipn cut k) + 1)
      by (rewrite Hcut, length_skipn; subst cut; lia).
    rewrite <- Hcut at 1.
    rewrite chunk_records_trailing; [reflexivity| |].
    + intros H. apply Hk. eapply in_skipn; eauto.
    + intros H. apply Hnl. eapply in_skipn; eauto.
Qed.

Lemma fold_merge_fail data n schedule i :
  In i schedule -> worker data n i = None ->
  forall acc, fold_left (ThreadFacts.merge_step data n) schedule acc = None.
Proof.
  induction schedule as [|j schedule IH]; intros Hin Hw acc; [contradiction|].
  cbn [fold_left]. destruct Hin as [->|Hin].
  - replace (ThreadFacts.merge_step data n acc i) with (@None umap)
      by (unfold ThreadFacts.merge_step; rewrite Hw; now destruct acc).
    apply ThreadFacts.merge_step_none.
  - now apply IH.
Qed.

End WithMap.
End TrailingFacts.

Module SignFacts.
Import ParseFloatRefinement.

(** The loops on [x :: str] from [S i] read what the loops on [str] read
    from [i]. *)
Lemma int_loop_shift x str left : forall i r log log',
  fst (int_loop (x :: str) left (S i) r log) =
  option_map (fun p => (S (fst p), snd p)) (fst (int_loop str left i r log')).
Proof.
  induction left as [|left IH]; intros i r log log'; [reflexivity|].
  cbn [int_loop]. rewrite !fst_bind_load. cbn [nth_error].
  destruct (nth_error str i) as [c|]; [|reflexivity].
  destruct (Byte.eqb c char_point); [reflexivity|]. apply IH.
Qed.

Lemma frac_loop_shift x str left : forall i fraction r log log',
  fst (frac_loop (x :: str) left (S i) fraction r log) =
  fst (frac_loop str left i fraction r log').
Proof.
  induction left as [|left IH]; intros i fraction r log log'; [reflexivity|].
  cbn [frac_loop]. rewrite !fst_bind_load. cbn [nth_error].
  destruct (nth_error str i) as [c|]; [|reflexivity]. apply IH.
Qed.

End SignFacts.

Module KeyFacts.
Section WithMap.

Context {M : UnorderedMap}.

(** A key is in the merged table exactly when one of the tables has it. *)
Lemma find_merge_tables_keys k ts :
  um_find k (merge_tables ts um_empty) <> None <->
  exists t, In t ts /\ um_find k t <> None.
Proof.
  rewrite TableFacts.find_merge_tables, um_find_empty.
  assert (H : entries_of k ts <> [] <-> exists t, In t ts /\ um_find k t <> None).
  { unfold entries_of. split.
    - intros Hne. destruct (flat_map _ ts) as [|v vs] eqn:E; [congruence|].
      assert (Hin : In v (v :: vs)) by now left.
      rewrite <- E in Hin. apply in_flat_map in Hin.
      destruct Hin as [t [Ht Hv]]. exists t. split; [assumption|].
      destruct (um_find k t); [discriminate|contradiction].
    - intros [t [Ht Hf]] E.
      destruct (um_find k t) as [v|] eqn:Ev; [|congruence].
      assert (Hin : In v (flat_map (fun t => match um_find k t with
                                              | Some v => [v] | None => [] end) ts)).
      { apply in_flat_map. exists t. split; [assumption|]. rewrite Ev. now left. }
      rewrite E in Hin. contradiction. }
  rewrite <- H. destruct (entries_of k ts); split; congruence.
Qed.

End WithMap.
End KeyFacts.

(** * Further properties *)

(** X2.  [parse_float] does not validate its input and does not fail on it:
    with one byte mapped at [str] and the span inside the mapping it returns
    a value, whatever the bytes are, and the value is never a NaN. *)
Theorem parse_float_returns (str : list byte) (len : nat) :
  1 <= length str -> len <= length str ->
  exists v, parse_float str len = Some v /\ F32.is_nan v = false.
Proof.
  intros H1 Hlen.
  destruct (ParseFloatTotal.parse_float_some str len H1 Hlen) as [v Hv].
  exists v. split; [exact Hv|].
  eapply ParseFloatFacts.parse_float_not_nan; eauto.
Qed.

Lemma parse_float_returns_witness :
  match parse_float (bytes "1e9?") 4 with
  | Some v => F32.is_nan v = false
  | None => False
  end.
Proof.
  destruct (parse_float_returns (bytes "1e9?") 4 ltac:(simpl; lia) ltac:(simpl; lia))
    as [v [-> H]].
  exact H.
Defined.

(** X3.  A line [key;value] whose key holds no [';'] and whose value is a
    non-empty span of the decimal grammar updates the entry of [key] with
    the value, creating it if it is absent, and leaves every other entry as
    it is.  The bytes after the line do not matter. *)
Theorem process_line_updates_station {M : UnorderedMap}
    (pre k : list byte) (l : NumericSpec.literal) (rest : list byte) (t : umap) :
  ~ In char_semi k ->
  NumericSpec.well_formed l -> NumericSpec.lit_bytes l <> [] ->
  let line := k ++ char_semi :: NumericSpec.lit_bytes l in
  exists t',
    process_line (pre ++ line ++ rest) (mk_sv (length pre) (length line)) t = Some t' /\
    um_find k t' = Some (update_stats (NumericSpec.value l) (um_at k t)) /\
    (forall k', k' <> k -> um_find k' t' = um_find k' t).
Proof.
  intros Hk Hwf Hne line.
  exists (um_modify k (update_stats (NumericSpec.value l)) t). split; [|split].
  - subst line. rewrite LineFacts.process_line_split by assumption.
    now rewrite ParseFloatRefinement.parse_float_value.
  - apply TableFacts.um_find_modify_same.
  - intros k' Hk'. apply TableFacts.um_find_modify_other. congruence.
Qed.

Lemma process_line_updates_station_witness :
  let k := bytes "Oslo" in
  let l := NumericSpec.mk_literal true (bytes "3") (Some (bytes "5")) in
  let line := k ++ char_semi :: NumericSpec.lit_bytes l in
  exists t',
    process_line ([] ++ line ++ [char_nl]) (mk_sv 0 (length line)) um_empty = Some t' /\
    um_find k t' = Some (update_stats (NumericSpec.value l) (um_at k um_empty)) /\
    (forall k', k' <> k -> um_find k' t' = um_find k' um_empty).
Proof.
  intros k l line.
  apply (process_line_updates_station [] k l [char_nl] um_empty).
  - vm_compute. intuition discriminate.
  - split; repeat constructor.
  - discriminate.
Defined.

(** X4.  A range can be processed in two parts cut where a line ends: when
    the byte before [mid] is a newline (or the first part is empty),
    processing [start_pos, end) is processing [start_pos, mid) and then
    [mid, end), with the same failures. *)
Theorem process_chunk_at_line_boundary {State : Type}
    (handler : string_view -> State -> option State)
    (data : list byte) (start_pos mid end_ : nat) (s : State) :
  start_pos <= mid <= end_ -> end_ <= length data ->
  mid = start_pos \/ nth_error data (mid - 1) = Some char_nl ->
  process_chunk_with handler data start_pos end_ s =
  match process_chunk_with handler data start_pos mid s with
  | Some s' => process_chunk_with handler data mid end_ s'
  | None => None
  end.
Proof.
  intros Hr He Hmid.
  rewrite !ChunkFacts.process_chunk_with_fold by lia.
  rewrite (ChunkCompose.range_app data start_pos mid end_ Hr).
  set (a := firstn (mid - start_pos) (skipn start_pos data)).
  set (b := firstn (end_ - mid) (skipn mid data)).
  assert (Ha : length a = mid - start_pos).
  { subst a. rewrite length_firstn, length_skipn. lia. }
  assert (Hlast : last a char_nl = char_nl).
  { destruct (Nat.eq_dec mid start_pos) as [E|E].
    - subst a. rewrite E, Nat.sub_diag. reflexivity.
    - destruct Hmid as [Hmid|Hmid]; [contradiction|].
      apply ChunkCompose.last_range; [lia | exact Hmid]. }
  rewrite ChunkCompose.split_lines_app by exact Hlast.
  rewrite (ChunkCompose.views_from_app a _ (ChunkFacts.split_lines_spec a) Hlast).
  rewrite ChunkCompose.fold_handler_app.
  replace (start_pos + length a) with mid by lia.
  destruct (LineSpec.fold_handler handler _ s) as [s'|]; [|reflexivity].
  rewrite ChunkFacts.process_chunk_with_fold by lia. reflexivity.
Qed.

Lemma process_chunk_at_line_boundary_witness :
  let data := bytes "a;1" ++ [char_nl] ++ bytes "b;2" ++ [char_nl] in
  process_chunk_with (fun v log => Some (log ++ [v])) data 0 8 [] =
  match process_chunk_with (fun v log => Some (log ++ [v])) data 0 4 [] with
  | Some s' => process_chunk_with (fun v log => Some (log ++ [v])) data 4 8 s'
  | None => None
  end.
Proof.
  intros data.
  apply (process_chunk_at_line_boundary (fun v log => Some (log ++ [v])) data 0 4 8 []).
  - lia.
  - vm_compute. repeat constructor.
  - right. reflexivity.
Defined.





(** X7.  With more threads than the file has bytes, [chunk_size] is 0: every
    thread but the last gets the empty range and merges an empty table, the
    last thread gets the whole file.  Whatever the order of the threads, the
    run is the run with one thread, failures included. *)
Theorem more_threads_than_bytes {M : UnorderedMap}
    (data : list byte) (num_threads : Z) (schedule : list Z) :
  (Z.of_nat (length data) < num_threads < 2 ^ 64)%Z ->
  Permutation schedule (thread_ids num_threads) ->
  run_threads data num_threads schedule = run_threads data 1 (thread_ids 1).
Proof.
  intros Hn Hperm. change (thread_ids 1) with [0%Z].
  rewrite SingleFacts.run_single. unfold run_threads.
  replace (num_threads =? 0)%Z with false by (symmetry; apply Z.eqb_neq; lia).
  assert (Hs : Forall (fun i => 0 <= i < num_threads)%Z schedule).
  { apply Forall_forall. intros i Hi. apply PlanFacts.in_thread_ids.
    eapply Permutation_in; eauto. }
  assert (Hnd : NoDup schedule).
  { eapply Permutation_NoDup; [apply Permutation_sym; exact Hperm|].
    apply SafetyFacts.thread_ids_nodup. }
  pose proof (SafetyFacts.fold_merge_small data num_threads schedule um_empty
                Hn Hs Hnd) as H.
  destruct (in_dec Z.eq_dec (num_threads - 1)%Z schedule) as [_|Hno].
  - exact H.
  - exfalso. apply Hno. eapply Permutation_in; [apply Permutation_sym; exact Hperm|].
    apply PlanFacts.in_thread_ids. lia.
Qed.

Lemma more_threads_than_bytes_witness :
  let data := bytes "A;1" ++ [char_nl] in
  run_threads data 5 [3; 0; 4; 1; 2]%Z = run_threads data 1 (thread_ids 1).
Proof.
  intros data.
  apply (more_threads_than_bytes data 5 [3; 0; 4; 1; 2]%Z).
  - vm_compute. split; reflexivity.
  - change (thread_ids 5) with [0; 1; 2; 3; 4]%Z.
    apply Permutation_sym.
    apply (Permutation_cons_app [3%Z] [4; 1; 2]%Z 0%Z).
    apply (Permutation_cons_app [3; 4]%Z [2%Z] 1%Z).
    apply (Permutation_cons_app [3; 4]%Z [] 2%Z).
    apply Permutation_refl.
Defined.

(** X8.  The minimum of a station is one of its values only if one of them
    is below the sentinel 99; if none is, the minimum stays 99, which may be
    no value of the station.  Likewise the maximum and the sentinel -99. *)
Theorem min_max_sentinels (vs : list float) :
  let s := update_all vs locationData_init in
  ((forall v, In v vs -> F32.ltb v (F32.of_Z 99) = false) ->
     temp_min s = F32.of_Z 99) /\
  ((exists v, In v vs /\ F32.ltb v (F32.of_Z 99) = true) ->
     In (temp_min s) vs) /\
  ((forall v, In v vs -> F32.ltb (F32.of_Z (-99)) v = false) ->
     temp_max s = F32.of_Z (-99)) /\
  ((exists v, In v vs /\ F32.ltb (F32.of_Z (-99)) v = true) ->
     In (temp_max s) vs).
Proof.
  intros s. subst s.
  destruct (StatsFacts.update_all_fields vs locationData_init)
    as (_ & _ & Hmin & Hmax).
  rewrite Hmin, Hmax. cbn [temp_min temp_max locationData_init].
  repeat split.
  - apply SentinelFacts.running_min_stuck.
  - intros (v & Hv & Hlt). eapply SentinelFacts.running_min_observed; eauto.
  - apply SentinelFacts.running_max_stuck.
  - intros (v & Hv & Hlt). eapply SentinelFacts.running_max_observed; eauto.
Qed.

Lemma min_max_sentinels_witness :
  temp_min (update_all [F32.of_Z 120; F32.of_Z 100] locationData_init) = F32.of_Z 99 /\
  In (temp_max (update_all [F32.of_Z 120; F32.of_Z 100] locationData_init))
     [F32.of_Z 120; F32.of_Z 100].
Proof.
  destruct (min_max_sentinels [F32.of_Z 120; F32.of_Z 100]) as (Hmin & _ & _ & Hmax).
  split.
  - apply Hmin. intros v [<-|[<-|[]]]; vm_compute; reflexivity.
  - apply Hmax. exists (F32.of_Z 120). split; [now left | vm_compute; reflexivity].
Defined.

(** X9.  When every interior boundary of the chunk plan is at the start of
    the mapping or right after a newline, no record is cut: a run with
    [num_threads] threads that returns, under any order of the merges, is
    matched by the run with one thread, which returns too, and for every key
    the two tables hold the same count and, as numbers, the same minimum and
    maximum. *)
Theorem aligned_chunks_agree {M : UnorderedMap}
    (data : list byte) (num_threads : Z) (schedule : list Z) (loc_data : umap) :
  (Z.of_nat (length data) < 2 ^ 64)%Z ->
  (1 <= num_threads < 2 ^ 64)%Z ->
  Permutation schedule (thread_ids num_threads) ->
  (forall i, (0 < i < num_threads)%Z ->
     after_newline data (fst (thread_range data num_threads i))) ->
  run_threads data num_threads schedule = Some loc_data ->
  exists single,
    run_threads data 1 (thread_ids 1) = Some single /\
    forall k, stats_agree (um_find k loc_data) (um_find k single).
Proof.
  intros Hlen Hn Hperm Haligned Hrun.
  assert (Hs : Forall (fun i => 0 <= i < num_threads)%Z schedule).
  { apply Forall_forall. intros i Hi. apply PlanFacts.in_thread_ids.
    now apply (Permutation_in _ Hperm). }
  destruct (AlignedRun.run_threads_records data num_threads schedule loc_data
              Hlen Hn Hs Hrun) as (recs & Hrecs & ->).
  set (all := concat (map recs (thread_ids num_threads))).
  assert (Hall : chunk_records data 0 (length data) = Some all).
  { apply (AlignedFacts.chained_records data
             (map (thread_range data num_threads) (thread_ids num_threads))).
    - now apply AlignedRun.thread_ranges_chained.
    - lia.
    - now apply AlignedRun.interior_ranges_aligned.
    - apply AlignedRun.Forall2_map_in. intros i Hi. apply Hrecs.
      apply (Permutation_in _ (Permutation_sym Hperm) Hi). }
  exists (merge_tables (map (fun rs => aggregate rs um_empty) [all]) um_empty).
  split.
  - change (thread_ids 1) with [0%Z]. rewrite SingleFacts.run_single.
    rewrite AlignedFacts.process_chunk_records by lia.
    rewrite Hall. reflexivity.
  - intros k. apply AlignedRun.merged_groups_agree.
    cbn [concat]. rewrite app_nil_r. subst all.
    rewrite <- !flat_map_concat_map. now apply Permutation_flat_map.
Qed.

Lemma aligned_chunks_agree_witness :
  let data := bytes "A;1.5" ++ [char_nl] ++ bytes "B;2.0" ++ [char_nl] in
  let k := bytes "A" in
  match run_threads data 2 [1; 0]%Z, run_threads data 1 [0%Z] with
  | Some loc_data, Some single => stats_agree (um_find k loc_data) (um_find k single)
  | _, _ => False
  end.
Proof.
  intros data k.
  destruct (run_threads data 2 [1; 0]%Z) as [loc_data|] eqn:E;
    [|vm_compute in E; discriminate].
  destruct (aligned_chunks_agree data 2 [1; 0]%Z loc_data) as [single [E1 H]].
  - vm_compute. reflexivity.
  - lia.
  - apply perm_swap.
  - intros i Hi. assert (i = 1%Z) by lia. subst i. right. reflexivity.
  - exact E.
  - change (thread_ids 1) with [0%Z] in E1. rewrite E1. apply H.
Defined.

(** X10.  A file whose last line is a station name followed by [';'] and
    nothing else: the thread with the last range calls [parse_float] with
    the position after the mapping and an empty span, and [parse_float]
    reads [str[0]] there.  Whatever the number of threads and the order of
    the merges, the run has a read outside the mapped file. *)
Theorem trailing_delimiter_read_outside {M : UnorderedMap}
    (pre k : list byte) (num_threads : Z) (schedule : list Z) :
  last pre char_nl = char_nl ->
  ~ In char_semi k -> ~ In char_nl k ->
  (Z.of_nat (length (pre ++ k ++ [char_semi])) < 2 ^ 64)%Z ->
  (1 <= num_threads < 2 ^ 64)%Z ->
  In (num_threads - 1)%Z schedule ->
  run_threads (pre ++ k ++ [char_semi]) num_threads schedule = None.
Proof.
  intros Hpre Hk Hnl Hlen Hn Hin.
  set (data := pre ++ k ++ [char_semi]) in *.
  assert (Hsize : length data = length pre + length k + 1)
    by (subst data; rewrite !length_app; simpl; lia).
  assert (Hw : worker data num_threads (num_threads - 1) = None).
  { unfold worker.
    rewrite PlanFacts.chunk_range_plain by lia.
    rewrite Z.eqb_refl, Nat2Z.id, Hsize.
    apply TrailingFacts.process_chunk_trailing; auto.
    rewrite <- Hsize.
    assert (H0 : (0 <= Z.of_nat (length data) / num_threads)%Z)
      by (apply Z.div_pos; lia).
    pose proof (Z.mul_div_le (Z.of_nat (length data)) num_threads ltac:(lia)).
    assert ((num_threads - 1) * (Z.of_nat (length data) / num_threads)
            < Z.of_nat (length data))%Z by nia.
    lia. }
  unfold run_threads.
  replace (num_threads =? 0)%Z with false by (symmetry; apply Z.eqb_neq; lia).
  exact (TrailingFacts.fold_merge_fail data num_threads schedule _ Hin Hw
           (Some um_empty)).
Qed.

Lemma trailing_delimiter_read_outside_witness :
  run_threads ((bytes "A;1.0" ++ [char_nl]) ++ bytes "B" ++ [char_semi]) 2 [0; 1]%Z
  = None.
Proof.
  apply (trailing_delimiter_read_outside (bytes "A;1.0" ++ [char_nl]) (bytes "B")
           2 [0; 1]%Z).
  - reflexivity.
  - intros [H|[]]. discriminate H.
  - intros [H|[]]. discriminate H.
  - vm_compute. reflexivity.
  - lia.
  - right. now left.
Defined.

(** X11.  The sign is read once, at [str[0]]: on a span that starts with
    ['-'] followed by a byte other than ['-'], [parse_float] returns the
    negation of what it returns on the span without the sign, whatever the
    other bytes are; it has a read outside the mapping exactly when the
    unsigned call has one. *)
Theorem parse_float_minus (c : byte) (rest : list byte) (len : nat) :
  c <> char_minus ->
  parse_float (char_minus :: c :: rest) (S len) =
  option_map F32.opp (parse_float (c :: rest) len).
Proof.
  intros Hc.
  assert (Ec : Byte.eqb c char_minus = false).
  { destruct (Byte.eqb c char_minus) eqn:E; [|reflexivity].
    apply Byte.byte_dec_bl in E. contradiction. }
  unfold parse_float, Rd.run, parse_float_rd.
  rewrite !ParseFloatRefinement.fst_bind_load. cbn [nth_error].
  change (Byte.eqb char_minus char_minus) with true. rewrite Ec. cbv iota.
  replace (S len - 1) with len by lia. rewrite Nat.sub_0_r.
  rewrite !ParseFloatRefinement.fst_bind.
  rewrite (SignFacts.int_loop_shift char_minus (c :: rest) len 0 F32.zero
             ([] ++ [0]) ([] ++ [0])).
  destruct (int_loop (c :: rest) len 0 F32.zero ([] ++ [0])) as [[[j v]|] log1] eqn:E1;
    cbn [fst snd option_map]; [|reflexivity].
  rewrite !ParseFloatRefinement.fst_bind.
  change (S j <? S len) with (j <? len).
  destruct (j <? len); [|reflexivity].
  rewrite !ParseFloatRefinement.fst_bind_load.
  change (nth_error (char_minus :: c :: rest) (S j)) with (nth_error (c :: rest) j).
  destruct (nth_error (c :: rest) j) as [d|]; [|reflexivity].
  destruct (Byte.eqb d char_point); [|reflexivity].
  change (S len - S (S j)) with (len - S j).
  match goal with
  | |- context [fst (frac_loop (char_minus :: ?s) ?l (S ?i) ?f ?r ?lg)] =>
      rewrite (SignFacts.frac_loop_shift char_minus s l i f r lg (log1 ++ [j]))
  end.
  destruct (frac_loop (c :: rest) (len - S j) (S j) F32.one v (log1 ++ [j]))
    as [[w|] log2]; reflexivity.
Qed.

Lemma parse_float_minus_witness :
  parse_float (bytes "-1.5;") 4 = option_map F32.opp (parse_float (bytes "1.5;") 3).
Proof.
  apply (parse_float_minus x31 (bytes ".5;") 3). discriminate.
Defined.

(** X12.  No station is lost and none is invented: after a run that
    returns, a key is in the table exactly when the range of one of the
    threads has a line with that key before its first [';']. *)
Theorem reported_stations {M : UnorderedMap}
    (data : list byte) (num_threads : Z) (schedule : list Z) (loc_data : umap) :
  (Z.of_nat (length data) < 2 ^ 64)%Z ->
  (1 <= num_threads < 2 ^ 64)%Z ->
  Forall (fun i => 0 <= i < num_threads)%Z schedule ->
  run_threads data num_threads schedule = Some loc_data ->
  forall k,
    um_find k loc_data <> None <->
    exists i rs,
      In i schedule /\
      chunk_records data (fst (thread_range data num_threads i))
                         (snd (thread_range data num_threads i)) = Some rs /\
      In k (map fst rs).
Proof.
  intros Hlen Hn Hs Hrun k.
  destruct (AlignedRun.run_threads_records data num_threads schedule loc_data
              Hlen Hn Hs Hrun) as (recs & Hrecs & ->).
  rewrite KeyFacts.find_merge_tables_keys. split.
  - intros [t [Ht Hf]].
    apply in_map_iff in Ht. destruct Ht as [rs [<- Hrs]].
    apply in_map_iff in Hrs. destruct Hrs as [i [<- Hi]].
    exists i, (recs i). split; [assumption|]. split; [now apply Hrecs|].
    now apply ReportFacts.find_aggregate_keys.
  - intros (i & rs & Hi & Hrs & Hk).
    rewrite (Hrecs i Hi) in Hrs. injection Hrs as <-.
    exists (aggregate (recs i) um_empty). split.
    + apply (in_map (fun rs => aggregate rs um_empty)). now apply in_map.
    + now apply ReportFacts.find_aggregate_keys.
Qed.

Lemma reported_stations_witness :
  let data := bytes "A;1.5" ++ [char_nl] ++ bytes "B;2.0" ++ [char_nl] in
  match run_threads data 2 [1; 0]%Z with
  | Some loc_data => um_find (bytes "B") loc_data <> None
  | None => False
  end.
Proof.
  intros data.
  destruct (run_threads data 2 [1; 0]%Z) as [loc_data|] eqn:E;
    [|vm_compute in E; discriminate].
  apply (reported_stations data 2 [1; 0]%Z loc_data).
  - vm_compute. reflexivity.
  - lia.
  - repeat constructor; lia.
  - exact E.
  - exists 1%Z, [(bytes "B", S754_finite false 8388608 (-22))].
    split; [now left|]. split; [vm_compute; reflexivity | now left].
Defined.
